(** * remotesync: the sender side of the chunk synchronisation protocol

    A shallow embedding of [remotesync/send.go] (functions
    [WriteChunkHashes], [forEachChunk] and [WriteChunkData]) together with
    the collaborators these functions call: the stream shuffler of package
    [shuffle], the bit reader, the varint writer and the content store; and
    of the helpers [assertEqual] and [randomBytes] of
    [remotesync/remotesync_test.go]. *)

From stdpp Require Import gmap list.
From Stdlib Require Import ZArith Lia.

(** ** Go values *)

(** A byte is kept as an integer in [0, 256). *)
Abbreviation byte := Z (only parsing).

(** Go [error] values, distinguished by kind.  The text of a formatted
    message is not modelled: [fmt.Errorf("Wishlist too short: %v on chunk %v",
    err, iter.Key())] is [ErrWishlistTooShort err]. *)
Inductive error : Type :=
| EOF                                   (* io.EOF *)
| ErrIO (code : nat)                    (* a failure of a byte channel *)
| ErrNotFound                           (* storage.Get on an absent key *)
| ErrPermutationExhausted               (* Put beyond the permutation's domain *)
| ErrWishlistTooShort (cause : error)   (* "Wishlist too short: ..." *)
| ErrSpuriousRequest                    (* "Receiver requested the empty chunk" *)
| ErrWishlistTooLong                    (* "Wishlist too long" *)
| ErrDelegate (code : nat).             (* an error made by a caller's function *)

Global Instance error_eq_dec : EqDecision error.
Proof. solve_decision. Defined.

(** A Go function [func(...) error] acting on a state [St]: the new state
    and [None] for a [nil] error. *)
Abbreviation Action St := (St → St * option error) (only parsing).

(** Sequencing with Go's [if err != nil { return err }]. *)
Definition and_then {St : Type} (a b : Action St) : Action St :=
  λ st, match a st with
        | (st', Some e) => (st', Some e)
        | (st', None) => b st'
        end.

Notation "a ;;; b" := (and_then a b) (at level 62, right associativity).

(** ** Package shuffle *)

Module shuffle.

(** [type Permutation []int]: entry [i] is the destination slot of the
    logical index [i]. *)
Abbreviation Permutation := (list nat) (only parsing).

(** A permutation of the domain [0, N): no slot occurs twice and every
    slot lies in the domain. *)
Definition is_permutation (perm : Permutation) : Prop :=
  NoDup perm ∧ Forall (λ j, j < length perm) perm.

Global Instance is_permutation_dec perm : Decision (is_permutation perm).
Proof. unfold is_permutation. apply _. Defined.

Section stream_shuffler.
Context {St A : Type}.

(** Modelled from the spec: the type [shuffle.StreamShuffler] is not among
    the sources.  It is "an ordered map from destination slot to pending
    item plus a next-slot-to-emit cursor", built from a permutation, a
    placeholder and a consumer callback. *)
Record StreamShuffler : Type := mkStreamShuffler {
  ss_perm : Permutation;
  ss_placeholder : A;
  ss_consume : A → Action St;
  ss_pending : gmap nat A;
  ss_next : nat;
  ss_count : nat
}.

(** Modelled from the spec: [shuffle.NewStreamShuffler] is not among the
    sources; nothing is pending, slot 0 is the next to emit and logical
    index 0 the next to arrive. *)
Definition NewStreamShuffler (perm : Permutation) (placeholder : A)
    (consume : A → Action St) : StreamShuffler :=
  {| ss_perm := perm; ss_placeholder := placeholder; ss_consume := consume;
     ss_pending := ∅; ss_next := 0; ss_count := 0 |}.

(** The cursor moves one slot on; the emitted slot leaves the buffer. *)
Definition advance (s : StreamShuffler) : StreamShuffler :=
  {| ss_perm := ss_perm s; ss_placeholder := ss_placeholder s;
     ss_consume := ss_consume s;
     ss_pending := delete (ss_next s) (ss_pending s);
     ss_next := S (ss_next s); ss_count := ss_count s |}.

(** The item is buffered under its destination slot. *)
Definition buffer_at (slot : nat) (v : A) (s : StreamShuffler) : StreamShuffler :=
  {| ss_perm := ss_perm s; ss_placeholder := ss_placeholder s;
     ss_consume := ss_consume s;
     ss_pending := <[slot := v]> (ss_pending s);
     ss_next := ss_next s; ss_count := S (ss_count s) |}.

(** Modelled from the spec: "whenever the smallest not-yet-emitted
    destination slot becomes available, invokes emit on it, repeating while
    further consecutive destination slots are already buffered"; stops at
    the first emission error.  Every round removes one buffered item, so
    the number of buffered items bounds the rounds. *)
Fixpoint drain (rounds : nat) (s : StreamShuffler) (st : St)
    : StreamShuffler * St * option error :=
  match rounds with
  | 0 => (s, st, None)
  | S rounds' =>
      match ss_pending s !! ss_next s with
      | None => (s, st, None)
      | Some v =>
          match ss_consume s v st with
          | (st', Some e) => (s, st', Some e)
          | (st', None) => drain rounds' (advance s) st'
          end
      end
  end.

(** Modelled from the spec: [StreamShuffler.Put] is not among the sources.
    "Accepts the next item in logical order.  Internally buffers the item
    keyed by its destination slot (permutation(logical index))" and then
    drains; "exhausting the permutation domain" is an error. *)
Definition Put (v : A) (s : StreamShuffler) (st : St)
    : StreamShuffler * St * option error :=
  match ss_perm s !! ss_count s with
  | None => (s, st, Some ErrPermutationExhausted)
  | Some slot =>
      let s' := buffer_at slot v s in
      drain (size (ss_pending s')) s' st
  end.

(** The slots from the cursor to the end of the domain, in ascending
    order: a buffered item where there is one, the placeholder elsewhere;
    stops at the first emission error. *)
Fixpoint fill (slots : nat) (s : StreamShuffler) (st : St) : St * option error :=
  match slots with
  | 0 => (st, None)
  | S slots' =>
      match ss_consume s (default (ss_placeholder s) (ss_pending s !! ss_next s)) st with
      | (st', Some e) => (st', Some e)
      | (st', None) => fill slots' (advance s) st'
      end
  end.

(** Modelled from the spec: [StreamShuffler.End] is not among the sources.
    "Signals that no more logical items will arrive.  Fills every remaining
    un-emitted destination slot, in ascending slot order, with the
    placeholder value and emits it", a slot whose item is still buffered
    being emitted with that item ("each argument being either a real item
    or the placeholder"). *)
Definition End (s : StreamShuffler) (st : St) : St * option error :=
  fill (length (ss_perm s) - ss_next s) s st.

(** The loop [for it.Next() { if err := shuffler.Put(..); err != nil
    { return err } }] followed by [shuffler.End()], as both callers in
    send.go write it. *)
Fixpoint put_each_then_End (items : list A) (s : StreamShuffler) (st : St)
    : St * option error :=
  match items with
  | [] => End s st
  | v :: items' =>
      match Put v s st with
      | (_, st', Some e) => (st', Some e)
      | (s', st', None) => put_each_then_End items' s' st'
      end
  end.

(** *** What the consumer sees *)

(** The consumer applied to a list of values in order, stopping at the
    first error. *)
Fixpoint consume_all (consume : A → Action St) (vs : list A) : Action St :=
  match vs with
  | [] => λ st, (st, None)
  | v :: vs' => consume v ;;; consume_all consume vs'
  end.

(** The logical index that the permutation sends to slot [j]. *)
Definition source_of (perm : Permutation) (j : nat) : option nat :=
  fst <$> list_find (λ s, s = j) perm.

(** The value of slot [j]: the item whose logical index is sent to [j],
    the placeholder when no item was put for it. *)
Definition slot_item (perm : Permutation) (placeholder : A) (items : list A)
    (j : nat) : A :=
  match source_of perm j with
  | Some i => default placeholder (items !! i)
  | None => placeholder
  end.

(** The slots [0 .. N-1] in ascending order. *)
Definition shuffled (perm : Permutation) (placeholder : A) (items : list A)
    : list A :=
  slot_item perm placeholder items <$> seq 0 (length perm).

(** *** The state between two calls *)

(** The buffer of a shuffler that was made from [perm], [ph] and [emit]
    and was fed a prefix of [all]: what is pending are items that were put,
    under their slots and not before the cursor. *)
Record Buffered (perm : Permutation) (ph : A) (emit : A → Action St)
    (all : list A) (s : StreamShuffler) : Prop := {
  buf_perm : ss_perm s = perm;
  buf_placeholder : ss_placeholder s = ph;
  buf_consume : ss_consume s = emit;
  buf_pending : ∀ j v, ss_pending s !! j = Some v →
    ss_next s ≤ j ∧ ∃ i, i < ss_count s ∧ perm !! i = Some j ∧ all !! i = Some v;
  buf_put : ∀ i j, i < ss_count s → perm !! i = Some j →
    j < ss_next s ∨ ss_pending s !! j = all !! i;
  buf_count : ss_count s ≤ length all
}.

(** While items arrive, only slots of items that were put are emitted. *)
Definition Inv (perm : Permutation) (ph : A) (emit : A → Action St)
    (all : list A) (s : StreamShuffler) : Prop :=
  Buffered perm ph emit all s
  ∧ ∀ j, j < ss_next s → ∃ i, i < ss_count s ∧ perm !! i = Some j.

End stream_shuffler.

Global Arguments StreamShuffler : clear implicits.

(** A consumer that notes down every value it is called with and never
    fails. *)
Definition record_item {A : Type} : A → Action (list A) :=
  λ v seen, (seen ++ [v], None).

End shuffle.

(** ** Package remotesync *)

Module remotesync.
Import shuffle.

(** *** The content store (package cafs) *)

(** [cafs.SKey], a fixed-width array of bytes. *)
Abbreviation SKey := (list byte) (only parsing).

(** The width of [cafs.SKey].  Neither the sources nor the spec ("key(fixed
    N bytes)") give the number; 32, the width of a SHA-256 digest, stands for
    it.  It is used for the length of [emptyKey] and nowhere else. *)
Definition KeySize : nat := 32.

(** Modelled from the spec: the declaration of [emptyKey] is not among the
    sources; it is the "zero-valued key", "an all-zero key". *)
Definition emptyKey : SKey := replicate KeySize 0%Z.

(** The [cafs.File] that [storage.Get] hands out for one chunk: [Size()]
    and the bytes that [Open()] reads. *)
Record Chunk : Type := mkChunk {
  chunk_size : Z;
  chunk_data : list byte
}.

(** The [cafs.File] being sent: [Size()] and the (key, size) pairs its
    [Chunks()] iterator yields, in storage order.  The iterator itself is
    this list; its [Dispose] and the logging under [LoggingEnabled] leave no
    trace in the model. *)
Record File : Type := mkFile {
  file_size : Z;
  file_chunks : list (SKey * Z)
}.

(** [cafs.FileStorage], read through [Get] only. *)
Abbreviation FileStorage := (gmap (list Z) Chunk) (only parsing).

(** *** Machine integers *)

(** The value of an [int64] after an arithmetic operation. *)
Definition wrap64 (z : Z) : Z := ((z + 2 ^ 63) mod 2 ^ 64 - 2 ^ 63)%Z.

(** *** Byte channels *)

(** [io.Writer]: [Write] takes the bytes and answers with an error or nil
    (the byte count it also returns is dropped at every call in send.go). *)
Class Writer (W : Type) := Write : list byte → Action W.

(** A writer that keeps what it is given and never fails, as
    [bytes.Buffer]. *)
Global Instance buffer_Writer : Writer (list byte) :=
  λ p buf, (buf ++ p, None).

(** A writer that fails once more than [room] bytes were offered, as a
    channel that its reader closes. *)
Record Pipe : Type := mkPipe { pipe_data : list byte; pipe_room : nat }.

Global Instance pipe_Writer : Writer Pipe :=
  λ p w, if decide (length p ≤ pipe_room w)
         then (mkPipe (pipe_data w ++ p) (pipe_room w - length p), None)
         else (w, Some (ErrIO 0)).

(** [io.ByteReader], as the script of what its successive [ReadByte] calls
    answer; after the script it answers [io.EOF]. *)
Abbreviation ByteReader := (list (error + Z)) (only parsing).

Definition ReadByte (r : ByteReader) : ByteReader * (error + byte) :=
  match r with
  | [] => ([], inl EOF)
  | res :: r' => (r', res)
  end.

(** [io.Copy(w, r)] for a reader [r] that holds [data]: the bytes go to
    the writer; the count of copied bytes and the first error. *)
Definition io_Copy {W} `{Writer W} (data : list byte) (w : W)
    : W * Z * option error :=
  match Write data w with
  | (w', None) => (w', Z.of_nat (length data), None)
  | (w', Some e) => (w', 0%Z, Some e)
  end.

(** *** Varint *)

(** Little-endian base 128: seven bits a byte, the high bit set when more
    bytes follow. *)
Fixpoint uvarint_bytes (rounds : nat) (x : Z) : list byte :=
  match rounds with
  | 0 => []
  | S rounds' =>
      if decide (x < 128)%Z then [x]
      else Z.lor (Z.land x 127) 128 :: uvarint_bytes rounds' (Z.shiftr x 7)
  end.

(** Modelled from the spec: [writeVarint] is not among the sources.
    "Encodes a non-negative 64-bit integer using the standard little-endian
    base-128 continuation scheme"; ten bytes hold 64 bits. *)
Definition encode_varint (value : Z) : list byte :=
  uvarint_bytes 10 (value mod 2 ^ 64).

Definition writeVarint {W} `{Writer W} (value : Z) : Action W :=
  Write (encode_varint value).

(** *** Bit reader *)

(** The byte being taken apart and the number of its bits not yet
    delivered. *)
Record bitReader : Type := mkBitReader {
  br_bits : byte;
  br_left : nat
}.

(** Modelled from the spec: [newBitReader] is not among the sources; no
    byte has been fetched yet. *)
Definition newBitReader : bitReader := mkBitReader 0 0.

(** Modelled from the spec: [bitReader.ReadBit] is not among the sources.
    "Reader consumes one bit at a time from an underlying byte source", most
    significant bit first; an error of the byte source is handed on.  The
    byte source is the reader [r] that the bit reader was made from. *)
Definition ReadBit (src : ByteReader * bitReader)
    : ByteReader * bitReader * (error + bool) :=
  let (r, bits) := src in
  match br_left bits with
  | S k => (r, mkBitReader (br_bits bits) k, inr (Z.testbit (br_bits bits) (Z.of_nat k)))
  | 0 =>
      match ReadByte r with
      | (r', inl err) => (r', bits, inl err)
      | (r', inr b) => (r', mkBitReader b 7, inr (Z.testbit b 7))
      end
  end.

(** [n] calls of [ReadBit] in a row: the bits they deliver, or the first
    error. *)
Fixpoint read_bits (n : nat) (src : ByteReader * bitReader)
    : ByteReader * bitReader * (error + list bool) :=
  match n with
  | 0 => (src, inr [])
  | S n' =>
      match ReadBit src with
      | (src', inl err) => (src', inl err)
      | (src', inr b) =>
          match read_bits n' src' with
          | (src'', inl err) => (src'', inl err)
          | (src'', inr bs) => (src'', inr (b :: bs))
          end
      end
  end.

(** *** The state the sender works on *)

(** What happens to the handles of the content store. *)
Inductive Event : Type :=
| EvGet (h : nat) (key : list Z)       (* storage.Get(&key) returned handle h *)
| EvCall (h : nat) (requested : bool)  (* f(chunk, b) was called on handle h *)
| EvDispose (h : nat).                 (* chunk.Dispose() on handle h *)

Global Instance Event_eq_dec : EqDecision Event.
Proof. solve_decision. Defined.

(** The byte reader [r] (one object, used by the bit reader and by the
    final check of [forEachChunk]), the bit reader, the handles given out
    so far with the record of their use, and whatever the caller's function
    [f] has captured. *)
Record World (U : Type) : Type := mkWorld {
  w_reader : ByteReader;
  w_bits : bitReader;
  w_handles : nat;
  w_log : list Event;
  w_user : U
}.
Global Arguments mkWorld {U}.
Global Arguments w_reader {U}.
Global Arguments w_bits {U}.
Global Arguments w_handles {U}.
Global Arguments w_log {U}.
Global Arguments w_user {U}.

Section sender.
Context {U : Type}.

(** The bit source of a state, and a state with another bit source. *)
Definition w_src (w : World U) : ByteReader * bitReader := (w_reader w, w_bits w).

Definition with_src (src : ByteReader * bitReader) (w : World U) : World U :=
  mkWorld src.1 src.2 (w_handles w) (w_log w) (w_user w).

(** [bits.ReadBit()] *)
Definition next_bit (w : World U) : World U * (error + bool) :=
  let (src', res) := ReadBit (w_src w) in (with_src src' w, res).

(** [storage.Get(&key)]: a fresh handle on the chunk, or an error. *)
Definition Get (storage : FileStorage) (key : SKey) (w : World U)
    : World U * (error + nat * Chunk) :=
  match storage !! key with
  | None => (w, inl ErrNotFound)
  | Some c =>
      let h := w_handles w in
      (mkWorld (w_reader w) (w_bits w) (S h) (w_log w ++ [EvGet h key]) (w_user w),
       inr (h, c))
  end.

(** [f(chunk, b)], with the result kept rather than returned at once. *)
Definition call (f : Chunk → bool → Action U) (h : nat) (c : Chunk) (b : bool)
    (w : World U) : World U * option error :=
  let (u', err) := f c b (w_user w) in
  (mkWorld (w_reader w) (w_bits w) (w_handles w) (w_log w ++ [EvCall h b]) u', err).

(** [chunk.Dispose()]. *)
Definition Dispose (h : nat) (w : World U) : World U :=
  mkWorld (w_reader w) (w_bits w) (w_handles w) (w_log w ++ [EvDispose h]) (w_user w).

(** The consumer that [forEachChunk] gives to its shuffler
    (send.go, lines 82 to 105). *)
Definition forEachChunk_consume (storage : FileStorage)
    (f : Chunk → bool → Action U) (key : SKey) : Action (World U) :=
  λ w,
    match next_bit w with
    | (w1, inl err) => (w1, Some (ErrWishlistTooShort err))
    | (w1, inr b) =>
        if decide (key = emptyKey) then
          if b then (w1, Some ErrSpuriousRequest) else (w1, None)
        else
          match Get storage key w1 with
          | (w2, inl err) => (w2, Some err)
          | (w2, inr (h, chunk)) =>
              let (w3, err) := call f h chunk b w2 in
              let w4 := Dispose h w3 in
              match err with
              | Some e => (w4, Some e)
              | None => (w4, None)
              end
          end
    end.

(** The last step of [forEachChunk]: [if _, err := r.ReadByte();
    err != io.EOF { return errors.New("Wishlist too long") }]. *)
Definition expect_end : Action (World U) :=
  λ w,
    let (r', res) := ReadByte (w_reader w) in
    let w' := with_src (r', w_bits w) w in
    if decide (res = inl EOF) then (w', None) else (w', Some ErrWishlistTooLong).

(** [forEachChunk(storage, file, r, perm, f)]; the reader [r] is
    [w_reader] of the state it starts in. *)
Definition forEachChunk (storage : FileStorage) (file : File)
    (perm : Permutation) (f : Chunk → bool → Action U) : Action (World U) :=
  λ w,
    let w0 := with_src (w_reader w, newBitReader) w in
    let shuffler := NewStreamShuffler perm emptyKey (forEachChunk_consume storage f) in
    (put_each_then_End (file_chunks file).*1 shuffler ;;; expect_end) w0.

(** *** Describing a run *)

(** The three ways a slot can go: the iteration stops with an error
    before [f] is called; the slot is a placeholder and is passed over;
    the chunk is fetched, given to [f] and disposed of. *)
Inductive slot_outcome (storage : FileStorage) (f : Chunk → bool → Action U)
    (key : SKey) (w w' : World U) (r : option error) : Prop :=
| slot_rejected (e : error) :
    r = Some e →
    w_log w' = w_log w → w_handles w' = w_handles w → w_user w' = w_user w →
    slot_outcome storage f key w w' r
| slot_skipped :
    key = emptyKey → r = None →
    ReadBit (w_src w) = (w_src w', inr false) →
    w_log w' = w_log w → w_handles w' = w_handles w → w_user w' = w_user w →
    slot_outcome storage f key w w' r
| slot_called (c : Chunk) (b : bool) :
    key ≠ emptyKey → storage !! key = Some c →
    ReadBit (w_src w) = (w_src w', inr b) →
    w_user w' = (f c b (w_user w)).1 → r = (f c b (w_user w)).2 →
    w_log w' = w_log w ++ [EvGet (w_handles w) key; EvCall (w_handles w) b;
                           EvDispose (w_handles w)] →
    w_handles w' = S (w_handles w) →
    slot_outcome storage f key w w' r.

(** The calls [f(chunk, b)] that the slots lead to when the wishlist
    holds [bits]: one for every slot with a key other than the empty
    key, with the chunk that the store holds under the key. *)
Definition calls_of (storage : FileStorage) (slots : list SKey) (bits : list bool)
    : list (list Z * Chunk * bool) :=
  omap (λ kb : list Z * bool,
          if decide (kb.1 = emptyKey) then None
          else (λ c, (kb.1, c, kb.2)) <$> storage !! kb.1)
       (zip slots bits).

(** What the calls leave in the log when the first of them gets handle
    [h]. *)
Fixpoint call_events (h : nat) (calls : list (list Z * Chunk * bool)) : list Event :=
  match calls with
  | [] => []
  | (key, _, b) :: calls' =>
      EvGet h key :: EvCall h b :: EvDispose h :: call_events (S h) calls'
  end.

(** The state of [f] after the calls. *)
Definition after_calls (f : Chunk → bool → Action U)
    (calls : list (list Z * Chunk * bool)) (u : U) : U :=
  foldl (λ u call, (f call.1.2 call.2 u).1) u calls.

(** The calls made one after the other until one of them fails. *)
Fixpoint run_calls (f : Chunk → bool → Action U)
    (calls : list (list Z * Chunk * bool)) : Action U :=
  match calls with
  | [] => λ u, (u, None)
  | call :: calls' => f call.1.2 call.2 ;;; run_calls f calls'
  end.

(** The log only ever grows by whole groups of fetching a chunk,
    calling [f] on it and disposing of it, with handles in a row. *)
Definition log_grown (w0 w : World U) : Prop :=
  ∃ calls, w_log w = w_log w0 ++ call_events (w_handles w0) calls
           ∧ w_handles w = w_handles w0 + length calls.

(** The handles that the log shows as taken from the store, and those
    it shows as disposed of. *)
Definition acquired (log : list Event) : list nat :=
  omap (λ ev, match ev with EvGet h _ => Some h | _ => None end) log.

Definition disposed (log : list Event) : list nat :=
  omap (λ ev, match ev with EvDispose h => Some h | _ => None end) log.

End sender.

(** [WriteChunkHashes(file, perm, w)]: the local type [chunk] is a pair of
    a key and a size. *)
Definition WriteChunkHashes {W} `{Writer W} (file : File) (perm : Permutation)
    : Action W :=
  let emptyChunk : list Z * Z := (emptyKey, 0%Z) in
  let shuffler :=
    NewStreamShuffler perm emptyChunk
      (λ c : list Z * Z, Write c.1 ;;; writeVarint c.2) in
  put_each_then_End (file_chunks file) shuffler.

(** The keys that the shuffler of [forEachChunk] emits, slot by slot. *)
Definition slot_keys (file : File) (perm : Permutation) : list (list Z) :=
  shuffled perm emptyKey (file_chunks file).*1.

(** One entry of the hash list: the key bytes, then the size as a varint. *)
Definition hash_entry (c : list Z * Z) : list byte := c.1 ++ encode_varint c.2.

(** [type TransferStatusCallback func(bytesToTransfer, bytesTransferred
    int64)], acting on the state [Obs] of whoever observes; [None] is a
    [nil] callback. *)
Abbreviation TransferStatusCallback Obs := (Z → Z → Obs → Obs) (only parsing).

(** A callback that notes down every snapshot it is called with. *)
Definition record_status : TransferStatusCallback (list (Z * Z)) :=
  λ bytesToTransfer bytesTransferred seen, seen ++ [(bytesToTransfer, bytesTransferred)].

(** What the function literal of [WriteChunkData] has captured: the writer
    [w], the two counters and the observer behind [cb]. *)
Record Transfer (W Obs : Type) : Type := mkTransfer {
  t_out : W;
  bytesToTransfer : Z;
  bytesTransferred : Z;
  t_observer : Obs
}.
Global Arguments mkTransfer {W Obs}.
Global Arguments t_out {W Obs}.
Global Arguments bytesToTransfer {W Obs}.
Global Arguments bytesTransferred {W Obs}.
Global Arguments t_observer {W Obs}.

Section data.
Context {W Obs : Type} `{Writer W}.

(** [if cb != nil { cb(bytesToTransfer, bytesTransferred) }]. *)
Definition notify (cb : option (TransferStatusCallback Obs))
    (t : Transfer W Obs) : Transfer W Obs :=
  match cb with
  | None => t
  | Some cb =>
      mkTransfer (t_out t) (bytesToTransfer t) (bytesTransferred t)
                 (cb (bytesToTransfer t) (bytesTransferred t) (t_observer t))
  end.

(** The function that [WriteChunkData] gives to [forEachChunk]
    (send.go, lines 143 to 163). *)
Definition WriteChunkData_each (cb : option (TransferStatusCallback Obs))
    (chunk : Chunk) (requested : bool) : Action (Transfer W Obs) :=
  λ t,
    if requested then
      match writeVarint (chunk_size chunk) (t_out t) with
      | (o1, Some e) =>
          (mkTransfer o1 (bytesToTransfer t) (bytesTransferred t) (t_observer t), Some e)
      | (o1, None) =>
          match io_Copy (chunk_data chunk) o1 with
          | (o2, _, Some e) =>
              (mkTransfer o2 (bytesToTransfer t) (bytesTransferred t) (t_observer t), Some e)
          | (o2, n, None) =>
              (notify cb (mkTransfer o2 (bytesToTransfer t)
                            (wrap64 (bytesTransferred t + n)) (t_observer t)), None)
          end
      end
    else
      (notify cb (mkTransfer (t_out t) (wrap64 (bytesToTransfer t - chunk_size chunk))
                    (bytesTransferred t) (t_observer t)), None).

(** [WriteChunkData(storage, file, r, perm, w, cb)]; the reader [r] and
    the writer [w] are those of the state it starts in. *)
Definition WriteChunkData (storage : FileStorage) (file : File)
    (perm : Permutation) (cb : option (TransferStatusCallback Obs))
    : Action (World (Transfer W Obs)) :=
  λ w,
    let t0 := mkTransfer (t_out (w_user w)) (file_size file) 0%Z
                         (t_observer (w_user w)) in
    let t1 := notify cb t0 in
    forEachChunk storage file perm (WriteChunkData_each cb)
      (mkWorld (w_reader w) (w_bits w) (w_handles w) (w_log w) t1).

End data.

(** *** Describing a transfer *)

(** The two counters after [f] has dealt with a call. *)
Definition status_after (st : Z * Z) (call : list Z * Chunk * bool) : Z * Z :=
  if call.2
  then (st.1, wrap64 (st.2 + Z.of_nat (length (chunk_data call.1.2))))
  else (wrap64 (st.1 - chunk_size call.1.2), st.2).

(** The counters after each of the calls, in order. *)
Fixpoint statuses (st : Z * Z) (calls : list (list Z * Chunk * bool)) : list (Z * Z) :=
  match calls with
  | [] => []
  | call :: calls' => status_after st call :: statuses (status_after st call) calls'
  end.

(** What the calls put on the data stream: for a requested chunk its size
    as a varint and its bytes. *)
Definition data_stream (calls : list (list Z * Chunk * bool)) : list byte :=
  mjoin ((λ call : list Z * Chunk * bool,
            if call.2
            then encode_varint (chunk_size call.1.2) ++ chunk_data call.1.2
            else []) <$> calls).

(** The sum of the sizes of the requested chunks and of the lengths of
    their varint prefixes. *)
Definition requested_length (calls : list (list Z * Chunk * bool)) : Z :=
  foldr Z.add 0%Z
    ((λ call : list Z * Chunk * bool,
        if call.2
        then (Z.of_nat (length (encode_varint (chunk_size call.1.2)))
              + chunk_size call.1.2)%Z
        else 0%Z) <$> calls).

(** The observer after the callback (if there is one) was called with
    each of the snapshots. *)
Definition notify_all {Obs} (cb : option (TransferStatusCallback Obs))
    (snapshots : list (Z * Z)) (obs : Obs) : Obs :=
  match cb with
  | None => obs
  | Some cb => foldl (λ o st, cb st.1 st.2 o) obs snapshots
  end.

(** Every chunk in the store is as long as its [Size()] says. *)
Definition sizes_honest (storage : FileStorage) : Prop :=
  map_Forall (λ _ c, chunk_size c = Z.of_nat (length (chunk_data c))) storage.

(** The file and the store agree: the file's size is the sum of the sizes
    of its chunks and is an [int64]; no size is negative; a chunk of the
    file that the store holds has the listed size there. *)
Definition consistent (storage : FileStorage) (file : File) : Prop :=
  file_size file = foldr Z.add 0%Z (file_chunks file).*2
  ∧ (file_size file < 2 ^ 63)%Z
  ∧ Forall (λ ks : list Z * Z,
              (0 ≤ ks.2)%Z
              ∧ match storage !! ks.1 with
                | Some c => chunk_size c = ks.2
                | None => True
                end) (file_chunks file).

(** The size that the store gives for a key (0 for a key it lacks). *)
Definition stored_size (storage : FileStorage) (key : SKey) : Z :=
  match storage !! key with
  | Some c => chunk_size c
  | None => 0%Z
  end.

(** From one snapshot to the next, [bytesToTransfer] does not grow and
    [bytesTransferred] does not shrink. *)
Definition monotone (snaps : list (Z * Z)) : Prop :=
  ∀ i a b, snaps !! i = Some a → snaps !! S i = Some b →
           (b.1 ≤ a.1)%Z ∧ (a.2 ≤ b.2)%Z.

(** The state of a transfer of a file of [F] bytes that reports to
    [record_status], when the chunks dealt with so far have [s] bytes. *)
Definition progress_ok {W} (F : Z) (t : Transfer W (list (Z * Z))) (s : Z) : Prop :=
  (0 ≤ bytesTransferred t)%Z
  ∧ (bytesToTransfer t ≤ F)%Z
  ∧ (bytesTransferred t + (F - bytesToTransfer t) ≤ s)%Z
  ∧ (s ≤ F)%Z ∧ (F < 2 ^ 63)%Z
  ∧ monotone (t_observer t)
  ∧ last (t_observer t) = Some (bytesToTransfer t, bytesTransferred t)
  ∧ t_observer t !! 0 = Some (F, 0%Z)
  ∧ Forall (λ a : Z * Z, (a.2 ≤ bytesTransferred t)%Z ∧ (bytesToTransfer t ≤ a.1)%Z)
           (t_observer t).

(** The bytes of chunk data that the requested chunks have in all, and the
    bytes that their varint prefixes take. *)
Definition payload_length (calls : list (list Z * Chunk * bool)) : Z :=
  foldr Z.add 0%Z
    ((λ call : list Z * Chunk * bool, if call.2 then chunk_size call.1.2 else 0%Z)
       <$> calls).

Definition prefixes_length (calls : list (list Z * Chunk * bool)) : Z :=
  foldr Z.add 0%Z
    ((λ call : list Z * Chunk * bool,
        if call.2 then Z.of_nat (length (encode_varint (chunk_size call.1.2))) else 0%Z)
       <$> calls).

(** The state in which the shuffler of [forEachChunk] starts when
    [WriteChunkData] is called in state [w]: the counters are set, the
    callback has seen them, the bit reader is new. *)
Definition transfer_start {W Obs} (file : File)
    (cb : option (TransferStatusCallback Obs)) (w : World (Transfer W Obs))
    : World (Transfer W Obs) :=
  mkWorld (w_reader w) newBitReader (w_handles w) (w_log w)
    (notify cb (mkTransfer (t_out (w_user w)) (file_size file) 0%Z
                  (t_observer (w_user w)))).

(** Sending the chunk [c] to the writer in state [out] fails with [e]: the
    varint is refused, or the varint is taken and the bytes are refused. *)
Definition send_fails {W} `{Writer W} (c : Chunk) (out : W) (e : error) : Prop :=
  (writeVarint (chunk_size c) out).2 = Some e
  ∨ ((writeVarint (chunk_size c) out).2 = None
     ∧ (Write (chunk_data c) (writeVarint (chunk_size c) out).1).2 = Some e).

(** *** A small session *)

Definition key_a : SKey := replicate KeySize 1%Z.
Definition key_b : SKey := replicate KeySize 2%Z.

Definition example_storage : FileStorage :=
  <[key_a := mkChunk 2 [10; 11]%Z]> (<[key_b := mkChunk 3 [20; 21; 22]%Z]> ∅).

Definition example_file : File := mkFile 5 [(key_a, 2%Z); (key_b, 3%Z)].

(** Chunk 0 goes to slot 2, chunk 1 to slot 0; slot 1 is padding. *)
Definition example_perm : Permutation := [2; 0; 1].

(** Nine slots, more than the bits of one byte: chunk 0 goes to slot 8,
    chunk 1 to slot 0. *)
Definition example_long_perm : Permutation := [8; 0; 1; 2; 3; 4; 5; 6; 7].

(** A state to start from: the reader holds [wishlist], nothing has
    happened yet. *)
Definition start_with {U} (wishlist : ByteReader) (u : U) : World U :=
  mkWorld wishlist newBitReader 0 [] u.

(** A function [f] that does nothing. *)
Definition idle : Chunk → bool → Action unit := λ _ _ u, (u, None).

End remotesync.

(** ** The test helpers (remotesync_test.go) *)

Module remotesync_test.

(** What one [Read] into a buffer of one byte answers: the byte it put into
    the buffer, if any ([n] is 1 or 0), and the error. *)
Abbreviation ReadResult := (option Z * option error)%type (only parsing).

(** An [io.ReadCloser]: the script of what its successive [Read] calls
    answer (after the script: no byte and [io.EOF]) and what [Close]
    answers. *)
Record ReadCloser : Type := mkReadCloser {
  rc_reads : list (option Z * option error);
  rc_close : option error
}.

(** A reader over [content] that hands out one byte per call with a nil
    error, then [io.EOF], and closes without error. *)
Definition content_reader (content : list byte) : ReadCloser :=
  mkReadCloser ((λ b, (Some b, None)) <$> content) None.

(** [n, err := r.Read(buf)] for [buf] of length 1 holding [held]: the rest
    of the script, [n], what the buffer holds afterwards and the error. *)
Definition Read1 (script : list (option Z * option error)) (held : Z)
    : list (option Z * option error) * nat * Z * option error :=
  match script with
  | [] => ([], 0, held, Some EOF)
  | (Some b, err) :: script' => (script', 1, b, err)
  | (None, err) :: script' => (script', 0, held, err)
  end.

(** How [assertEqual] ends: it returns, or one of its [t.Fatal] calls stops
    the test; [Unfinished] stands for a loop that has not ended within the
    rounds given. *)
Inductive Verdict : Type :=
| Passed
| DifferInSize                                   (* "Files differ in size" *)
| ReadErrorsDiffer (errA errB : option error)    (* "Error a:%v b:%v" *)
| DifferInContent                                (* "Files differ in content" *)
| CloseFailed (e : error)                        (* check(t, "closing file ...", err) *)
| Unfinished.

Global Instance Verdict_eq_dec : EqDecision Verdict.
Proof. solve_decision. Defined.

(** The loop of [assertEqual] (remotesync_test.go, lines 122 to 137). *)
Fixpoint assertEqual_loop (rounds : nat) (a b : list (option Z * option error))
    (bufA bufB : Z) : option Verdict :=
  match rounds with
  | 0 => Some Unfinished
  | S rounds' =>
      let '(a', nA, bufA', errA) := Read1 a bufA in
      let '(b', nB, bufB', errB) := Read1 b bufB in
      if decide (nA ≠ nB) then Some DifferInSize
      else if decide (errA ≠ errB) then Some (ReadErrorsDiffer errA errB)
      else if decide (bufA' ≠ bufB') then Some DifferInContent
      else if decide (errA = Some EOF ∧ errB = Some EOF) then None
      else assertEqual_loop rounds' a' b' bufA' bufB'
  end.

(** [assertEqual(t, a, b)]: both buffers start zeroed; every round takes one
    answer from each script that has one left and the round after both
    scripts are used up ends the loop, so the two lengths bound the rounds.
    After the loop both readers are closed. *)
Definition assertEqual (a b : ReadCloser) : Verdict :=
  match assertEqual_loop (S (length (rc_reads a) + length (rc_reads b)))
          (rc_reads a) (rc_reads b) 0%Z 0%Z with
  | Some v => v
  | None =>
      match rc_close a with
      | Some e => CloseFailed e
      | None =>
          match rc_close b with
          | Some e => CloseFailed e
          | None => Passed
          end
      end
  end.

(** What tells two contents apart when they are read side by side: nothing,
    the end of one of them, or a byte. *)
Fixpoint first_difference (la lb : list byte) : option Verdict :=
  match la, lb with
  | [], [] => None
  | [], _ :: _ => Some DifferInSize
  | _ :: _, [] => Some DifferInSize
  | x :: la', y :: lb' =>
      if decide (x = y) then first_difference la' lb' else Some DifferInContent
  end.

(** A reader over [content] that hands out one byte per call and answers
    [io.EOF] together with the last byte, as the contract of [io.Reader]
    allows. *)
Fixpoint eager_reads (content : list byte) : list (option Z * option error) :=
  match content with
  | [] => []
  | [b] => [(Some b, Some EOF)]
  | b :: content' => (Some b, None) :: eager_reads content'
  end.

Definition eager_reader (content : list byte) : ReadCloser :=
  mkReadCloser (eager_reads content) None.

(** [rand.Int()]: the source of random numbers is the sequence of the
    numbers it will give, and the position in it. *)
Abbreviation Rand := (nat → Z) (only parsing).

(** The loop of [randomBytes]: [for len(result) < length { result =
    append(result, byte(rand.Int())) }]. *)
Fixpoint randomBytes_loop (rounds : nat) (length : Z) (rand : nat → Z)
    (pos : nat) (result : list byte) : list byte * nat :=
  match rounds with
  | 0 => (result, pos)
  | S rounds' =>
      if decide (Z.of_nat (List.length result) < length)%Z
      then randomBytes_loop rounds' length rand (S pos) (result ++ [rand pos mod 256])%Z
      else (result, pos)
  end.

(** [randomBytes(length)]: [make([]byte, 0, length)] panics for a negative
    [length] ([None]); otherwise the loop runs [length] times. *)
Definition randomBytes (length : Z) (rand : nat → Z) (pos : nat)
    : option (list byte * nat) :=
  if decide (length < 0)%Z then None
  else Some (randomBytes_loop (Z.to_nat length) length rand pos []).

End remotesync_test.

(** * Properties *)

(** ** The stream shuffler *)

Module shuffle_facts.
Import shuffle.

Lemma and_then_ok {St} (a b : St → St * option error) st st' :
  a st = (st', None) → (a ;;; b) st = b st'.
Proof. unfold and_then. by intros ->. Qed.

Lemma and_then_err {St} (a b : St → St * option error) st st' e :
  a st = (st', Some e) → (a ;;; b) st = (st', Some e).
Proof. unfold and_then. by intros ->. Qed.

Lemma consume_all_app {St A} (consume : A → St → St * option error) vs1 vs2 st :
  consume_all consume (vs1 ++ vs2) st
  = (consume_all consume vs1 ;;; consume_all consume vs2) st.
Proof.
  revert st. induction vs1 as [|v vs1 IH]; intros st; [done|].
  simpl. unfold and_then.
  destruct (consume v st) as [st' [e|]]; [done|]. apply IH.
Qed.

(** Whatever the permutation, a property of the state that every call of
    the consumer keeps is kept by feeding and ending. *)
Section invariant.
Context {St A : Type}.
Variable emit : A → St → St * option error.
Variable P : St → Prop.
Hypothesis emit_keeps : ∀ v st, P st → P (emit v st).1.

Lemma drain_keeps rounds : ∀ (s : StreamShuffler St A) st,
  ss_consume s = emit → P st →
  P (drain rounds s st).1.2 ∧ ss_consume (drain rounds s st).1.1 = emit.
Proof.
  induction rounds as [|rounds IH]; intros s st Hc HP; simpl; [done|].
  destruct (ss_pending s !! ss_next s) as [v|]; [|done].
  pose proof (emit_keeps v st HP) as HP'. rewrite Hc.
  destruct (emit v st) as [st' [e|]]; simpl in *; [done|].
  by apply IH.
Qed.

Lemma fill_keeps n : ∀ (s : StreamShuffler St A) st,
  ss_consume s = emit → P st → P (fill n s st).1.
Proof.
  induction n as [|n IH]; intros s st Hc HP; simpl; [done|].
  rewrite Hc.
  pose proof (emit_keeps (default (ss_placeholder s) (ss_pending s !! ss_next s)) st HP) as HP'.
  destruct (emit _ st) as [st' [e|]]; simpl in *; [done|].
  by apply IH.
Qed.

Lemma put_each_then_End_keeps items : ∀ (s : StreamShuffler St A) st,
  ss_consume s = emit → P st → P (put_each_then_End items s st).1.
Proof.
  induction items as [|v items IH]; intros s st Hc HP; simpl.
  - by apply fill_keeps.
  - unfold Put. destruct (ss_perm s !! ss_count s) as [slot|]; [|done].
    destruct (drain_keeps (size (ss_pending (buffer_at slot v s)))
                (buffer_at slot v s) st Hc HP) as [HP' Hc'].
    destruct (drain _ _ st) as [[s' st'] [e|]]; simpl in *; [done|].
    by apply IH.
Qed.
End invariant.

Section facts.
Context {St A : Type}.
Variable perm : list nat.
Variable ph : A.
Variable emit : A → St → St * option error.
Hypothesis perm_ok : is_permutation perm.

Lemma source_of_Some j i : source_of perm j = Some i ↔ perm !! i = Some j.
Proof.
  unfold source_of. destruct perm_ok as [Hnd _]. split.
  - destruct (list_find _ perm) as [[i' x]|] eqn:Hf; [|done].
    apply list_find_Some in Hf as (Hl & -> & _). by intros [= <-].
  - intros Hl.
    destruct (list_find (λ s, s = j) perm) as [[i' x]|] eqn:Hf.
    + apply list_find_Some in Hf as (Hl' & -> & _). simpl. f_equal.
      eapply NoDup_lookup; eauto.
    + apply list_find_None in Hf. rewrite Forall_forall in Hf.
      exfalso. eapply (Hf j); [|done].
      eapply list_elem_of_lookup_2; eauto.
Qed.

Lemma source_of_None j : source_of perm j = None ↔ ∀ i, perm !! i ≠ Some j.
Proof.
  split.
  - intros Hn i Hi. apply source_of_Some in Hi. congruence.
  - intros Hn. destruct (source_of perm j) as [i|] eqn:Hs; [|done].
    apply source_of_Some in Hs. by destruct (Hn i).
Qed.

Lemma perm_slot_lt i j : perm !! i = Some j → j < length perm.
Proof.
  intros Hl. destruct perm_ok as [_ Hr]. rewrite Forall_forall in Hr.
  apply Hr. eapply list_elem_of_lookup_2; eauto.
Qed.

Lemma perm_inj i i' j : perm !! i = Some j → perm !! i' = Some j → i = i'.
Proof. destruct perm_ok as [Hnd _]. eapply NoDup_lookup; eauto. Qed.

Local Abbreviation Buffered := (shuffle.Buffered perm ph emit).
Local Abbreviation Inv := (shuffle.Inv perm ph emit).

Lemma Inv_new all : Inv all (NewStreamShuffler perm ph emit).
Proof.
  split; [split|]; simpl; try done; intros; lia.
Qed.

Lemma Buffered_advance all s : Buffered all s → Buffered all (advance s).
Proof.
  intros [Hp Hph Hc Hpend Hput Hcnt]. split; simpl; try done.
  - intros j w Hj. apply lookup_delete_Some in Hj as [Hne Hj].
    destruct (Hpend _ _ Hj) as [Hle Hex]. split; [lia|done].
  - intros i j Hi Hj. destruct (Hput _ _ Hi Hj) as [Hlt|Heq]; [left; lia|].
    destruct (decide (j = ss_next s)) as [->|Hne]; [left; lia|].
    right. by rewrite lookup_delete_ne.
Qed.

Lemma Inv_advance all s v :
  Inv all s → ss_pending s !! ss_next s = Some v → Inv all (advance s).
Proof.
  intros [HB Hem] Hv. split; [by apply Buffered_advance|]. simpl.
  intros j Hj. destruct (decide (j = ss_next s)) as [->|Hne].
  - destruct (buf_pending _ _ _ _ _ HB _ _ Hv) as [_ (i & Hi & Hl & _)]. eauto.
  - apply Hem. lia.
Qed.

Lemma Inv_buffer all s x slot :
  Inv all s → all !! ss_count s = Some x → perm !! ss_count s = Some slot →
  Inv all (buffer_at slot x s).
Proof.
  intros [[Hp Hph Hc Hpend Hput Hcnt] Hem] Hx Hslot.
  split; [split|]; simpl; try done.
  - intros j w Hj. apply lookup_insert_Some in Hj as [[<- <-]|[Hne Hj]].
    + split; [|exists (ss_count s); split; [lia|done]].
      destruct (decide (ss_next s ≤ slot)); [done|].
      destruct (Hem slot) as (i & Hi & Hl); [lia|].
      pose proof (perm_inj _ _ _ Hl Hslot). lia.
    + destruct (Hpend _ _ Hj) as [Hle (i & Hi & Hl & Ha)].
      split; [done|]. exists i. split; [lia|done].
  - intros i j Hi Hj. destruct (decide (i = ss_count s)) as [->|Hne].
    + right. rewrite Hslot in Hj. injection Hj as <-.
      by rewrite lookup_insert_eq.
    + destruct (Hput i j) as [Hlt|Heq]; [lia|done|by left|].
      right. rewrite lookup_insert_ne; [done|].
      intros <-. pose proof (perm_inj _ _ _ Hj Hslot). lia.
  - apply lookup_lt_Some in Hx. lia.
  - intros j Hj. destruct (Hem j Hj) as (i & Hi & Hl). exists i. split; [lia|done].
Qed.

Lemma slot_item_pending all s j v :
  Buffered all s → ss_pending s !! j = Some v → slot_item perm ph all j = v.
Proof.
  intros HB Hv. destruct (buf_pending _ _ _ _ _ HB _ _ Hv) as [_ (i & _ & Hl & Ha)].
  unfold slot_item. apply source_of_Some in Hl. by rewrite Hl, Ha.
Qed.

Lemma slot_item_absent all s j :
  Buffered all s → ss_count s = length all → ss_next s ≤ j →
  ss_pending s !! j = None → slot_item perm ph all j = ph.
Proof.
  intros HB Hc Hj Hn. unfold slot_item.
  destruct (source_of perm j) as [i|] eqn:Hs; [|done].
  apply source_of_Some in Hs.
  destruct (decide (i < ss_count s)) as [Hi|Hi].
  - destruct (buf_put _ _ _ _ _ HB _ _ Hi Hs) as [?|Heq]; [lia|].
    rewrite Hn in Heq. by rewrite <- Heq.
  - rewrite lookup_ge_None_2; [done|lia].
Qed.

Lemma fill_spec all : ∀ n s st,
  Buffered all s → ss_count s = length all →
  fill n s st = consume_all emit (slot_item perm ph all <$> seq (ss_next s) n) st.
Proof.
  induction n as [|n IH]; intros s st HB Hc; [done|].
  simpl. rewrite (buf_consume _ _ _ _ _ HB), (buf_placeholder _ _ _ _ _ HB).
  assert (default ph (ss_pending s !! ss_next s)
          = slot_item perm ph all (ss_next s)) as ->.
  { destruct (ss_pending s !! ss_next s) as [v|] eqn:Hv; simpl.
    - symmetry. by eapply slot_item_pending.
    - symmetry. by eapply slot_item_absent. }
  unfold and_then.
  destruct (emit _ st) as [st' [e|]]; [done|].
  rewrite IH; [done|by apply Buffered_advance|done].
Qed.

Lemma drain_cont all c (K : StreamShuffler St A → St → St * option error) :
  (∀ s st, Inv all s → ss_count s = c →
     K s st = consume_all emit
                (slot_item perm ph all <$> seq (ss_next s) (length perm - ss_next s)) st) →
  ∀ rounds s st, size (ss_pending s) ≤ rounds → Inv all s → ss_count s = c →
    match drain rounds s st with
    | (_, st', Some e) => (st', Some e)
    | (s', st', None) => K s' st'
    end
    = consume_all emit
        (slot_item perm ph all <$> seq (ss_next s) (length perm - ss_next s)) st.
Proof.
  intros HK rounds. induction rounds as [|rounds IH]; intros s st Hsz HI Hc.
  - simpl. by apply HK.
  - simpl. destruct (ss_pending s !! ss_next s) as [v|] eqn:Hv; [|by apply HK].
    destruct (buf_pending _ _ _ _ _ (proj1 HI) _ _ Hv) as [_ (i & _ & Hl & _)].
    apply perm_slot_lt in Hl.
    replace (length perm - ss_next s) with (S (length perm - S (ss_next s))) by lia.
    simpl. rewrite (slot_item_pending _ _ _ _ (proj1 HI) Hv).
    rewrite (buf_consume _ _ _ _ _ (proj1 HI)). unfold and_then.
    destruct (emit v st) as [st' [e|]]; [done|].
    rewrite IH; [done| |by eapply Inv_advance|done].
    simpl. pose proof (map_size_delete_Some (ss_next s) (ss_pending s) (mk_is_Some _ _ Hv)). lia.
Qed.

Lemma put_each_spec all : length all ≤ length perm →
  ∀ items s st, Inv all s → items = drop (ss_count s) all →
    put_each_then_End items s st
    = consume_all emit
        (slot_item perm ph all <$> seq (ss_next s) (length perm - ss_next s)) st.
Proof.
  intros Hlen items. induction items as [|x items IH]; intros s st HI Hits.
  - simpl. unfold End. rewrite (buf_perm _ _ _ _ _ (proj1 HI)).
    apply fill_spec; [apply HI|].
    pose proof (buf_count _ _ _ _ _ (proj1 HI)).
    apply (f_equal length) in Hits. rewrite length_drop in Hits. simpl in Hits. lia.
  - assert (all !! ss_count s = Some x) as Hx.
    { rewrite <- (Nat.add_0_r (ss_count s)), <- lookup_drop, <- Hits. done. }
    assert (items = drop (S (ss_count s)) all) as Hits'.
    { by rewrite <- Nat.add_1_r, <- drop_drop, <- Hits. }
    pose proof (lookup_lt_Some _ _ _ Hx) as Hlt.
    destruct (lookup_lt_is_Some_2 perm (ss_count s)) as [slot Hslot]; [lia|].
    simpl. unfold Put. rewrite (buf_perm _ _ _ _ _ (proj1 HI)), Hslot.
    pose proof (Inv_buffer _ _ _ _ HI Hx Hslot) as HI'.
    refine (drain_cont all (S (ss_count s)) (put_each_then_End items) _
              _ (buffer_at slot x s) st (le_n _) HI' eq_refl).
    intros s' st' HI'' Hc'. apply IH; [done|]. by rewrite Hc'.
Qed.

(** Feeding [items] and ending shows the consumer the slots [0 .. N-1]
    in ascending order, up to its first error. *)
Lemma put_each_then_End_shuffled items st :
  length items ≤ length perm →
  put_each_then_End items (NewStreamShuffler perm ph emit) st
  = consume_all emit (shuffled perm ph items) st.
Proof.
  intros Hlen. unfold shuffled.
  rewrite (put_each_spec items Hlen items _ st (Inv_new items) eq_refl).
  simpl. by rewrite Nat.sub_0_r.
Qed.

Lemma length_shuffled items : length (shuffled perm ph items) = length perm.
Proof. unfold shuffled. by rewrite length_fmap, length_seq. Qed.

Lemma shuffled_lookup items j :
  j < length perm → shuffled perm ph items !! j = Some (slot_item perm ph items j).
Proof.
  intros Hj. unfold shuffled. rewrite list_lookup_fmap, lookup_seq_lt; done.
Qed.

Lemma shuffled_real items i j x :
  perm !! i = Some j → items !! i = Some x → shuffled perm ph items !! j = Some x.
Proof.
  intros Hp Hx. rewrite shuffled_lookup; [|by eapply perm_slot_lt].
  unfold slot_item. apply source_of_Some in Hp. by rewrite Hp, Hx.
Qed.

Lemma shuffled_placeholder items j :
  j < length perm → (∀ i, perm !! i = Some j → length items ≤ i) →
  shuffled perm ph items !! j = Some ph.
Proof.
  intros Hj Hno. rewrite shuffled_lookup; [|done]. unfold slot_item.
  destruct (source_of perm j) as [i|] eqn:Hs; [|done].
  apply source_of_Some in Hs. by rewrite lookup_ge_None_2; [|apply Hno].
Qed.

Lemma perm_Permutation : perm ≡ₚ seq 0 (length perm).
Proof.
  destruct perm_ok as [Hnd Hr]. apply submseteq_length_Permutation.
  - apply NoDup_submseteq; [done|]. intros x Hx. apply elem_of_seq.
    rewrite Forall_forall in Hr. specialize (Hr x Hx). lia.
  - by rewrite length_seq.
Qed.

Lemma slot_item_perm items :
  slot_item perm ph items <$> perm
  = (λ i, default ph (items !! i)) <$> seq 0 (length perm).
Proof.
  apply list_eq. intros i. rewrite !list_lookup_fmap.
  destruct (perm !! i) as [j|] eqn:Hj; simpl.
  - rewrite lookup_seq_lt by (by eapply lookup_lt_Some). simpl.
    unfold slot_item. apply source_of_Some in Hj. by rewrite Hj.
  - apply lookup_ge_None in Hj. by rewrite lookup_seq_ge.
Qed.

Lemma pad_items items :
  length items ≤ length perm →
  (λ i, default ph (items !! i)) <$> seq 0 (length perm)
  = items ++ replicate (length perm - length items) ph.
Proof.
  intros Hlen. apply list_eq. intros i. rewrite list_lookup_fmap.
  destruct (decide (i < length perm)) as [Hi|Hi].
  - rewrite lookup_seq_lt by done. simpl.
    destruct (decide (i < length items)) as [Hi'|Hi'].
    + rewrite lookup_app_l by done.
      destruct (lookup_lt_is_Some_2 items i Hi') as [x ->]. done.
    + rewrite lookup_app_r, lookup_replicate_2 by lia.
      by rewrite lookup_ge_None_2 by lia.
  - rewrite lookup_seq_ge by lia. simpl. symmetry. apply lookup_ge_None_2.
    rewrite length_app, length_replicate. lia.
Qed.

(** The slots are the items and the padding, rearranged. *)
Lemma shuffled_Permutation items :
  length items ≤ length perm →
  shuffled perm ph items ≡ₚ items ++ replicate (length perm - length items) ph.
Proof.
  intros Hlen. unfold shuffled. rewrite <- perm_Permutation.
  by rewrite slot_item_perm, pad_items.
Qed.

End facts.

Lemma consume_all_record {A} (vs seen : list A) :
  consume_all record_item vs seen = (seen ++ vs, None).
Proof.
  revert seen. induction vs as [|v vs IH]; intros seen; simpl.
  - by rewrite app_nil_r.
  - unfold and_then, record_item at 1. rewrite IH. by rewrite <- app_assoc.
Qed.

(** C2. For every permutation of a domain of size N and every k ≤ N items
    put in logical order and followed by End, the consumer is called exactly
    N times: the j-th call carries the value of slot j, which is the item
    whose logical index the permutation sends to j, and the placeholder
    when no item was put for slot j. *)
Theorem stream_shuffler_covers_every_slot {A} (perm : list nat) (ph : A)
    (items : list A) :
  is_permutation perm → length items ≤ length perm →
  ∃ emitted,
    put_each_then_End items (NewStreamShuffler perm ph record_item) []
    = (emitted, None)
    ∧ length emitted = length perm
    ∧ ∀ j, j < length perm →
        (∀ i x, perm !! i = Some j → items !! i = Some x → emitted !! j = Some x)
        ∧ ((∀ i, perm !! i = Some j → length items ≤ i) → emitted !! j = Some ph).
Proof.
  intros Hperm Hlen. exists (shuffled perm ph items).
  rewrite put_each_then_End_shuffled, consume_all_record by done.
  split; [done|]. split; [by apply length_shuffled|].
  intros j Hj. split.
  - intros i x. by apply shuffled_real.
  - by apply shuffled_placeholder.
Qed.

Lemma stream_shuffler_covers_every_slot_witness :
  ∃ emitted,
    put_each_then_End [10; 20] (NewStreamShuffler [2; 0; 1] 0 record_item) []
    = (emitted, None)
    ∧ length emitted = 3
    ∧ ∀ j, j < 3 →
        (∀ i x, [2; 0; 1] !! i = Some j → [10; 20] !! i = Some x → emitted !! j = Some x)
        ∧ ((∀ i, [2; 0; 1] !! i = Some j → 2 ≤ i) → emitted !! j = Some 0).
Proof.
  apply (stream_shuffler_covers_every_slot [2; 0; 1] 0 [10; 20]).
  - compute_done.
  - simpl. lia.
Defined.

End shuffle_facts.

(** ** The sender *)

Module remotesync_facts.
Import shuffle shuffle_facts remotesync.

Lemma consume_all_middle {St A} (consume : A → St → St * option error) vs j v st :
  vs !! j = Some v →
  consume_all consume vs st
  = (consume_all consume (take j vs) ;;; consume v ;;; consume_all consume (drop (S j) vs)) st.
Proof.
  intros Hj. rewrite <- (take_drop_middle vs j v Hj) at 1.
  by rewrite consume_all_app.
Qed.

(** *** WriteChunkHashes *)

Lemma consume_all_hash_entries (vs : list (list Z * Z)) (out : list Z) :
  consume_all (λ c : list Z * Z, Write c.1 ;;; writeVarint c.2) vs out
  = (out ++ mjoin (hash_entry <$> vs), None).
Proof.
  revert out. induction vs as [|c vs IH]; intros out; simpl.
  - by rewrite app_nil_r.
  - unfold and_then at 1. unfold and_then at 1. unfold Write at 1, buffer_Writer at 1.
    unfold writeVarint, Write at 1, buffer_Writer at 1.
    rewrite IH. unfold hash_entry at 2. by rewrite <- !app_assoc.
Qed.

(** C3. With a writer that accepts everything, [WriteChunkHashes] appends
    to the output exactly N entries, one per slot in ascending slot order,
    each entry being the key bytes followed by the varint of the size; the
    slot that the permutation gives to a chunk carries that chunk's key and
    size, and a slot that no chunk is sent to carries the all-zero key and
    size 0. *)
Theorem WriteChunkHashes_wire_format (file : File) (perm : list nat) (out : list Z) :
  is_permutation perm → length (file_chunks file) ≤ length perm →
  ∃ slots : list (list Z * Z),
    WriteChunkHashes file perm out = (out ++ mjoin (hash_entry <$> slots), None)
    ∧ length slots = length perm
    ∧ ∀ j, j < length perm →
        (∀ i c, perm !! i = Some j → file_chunks file !! i = Some c →
                slots !! j = Some c)
        ∧ ((∀ i, perm !! i = Some j → length (file_chunks file) ≤ i) →
           slots !! j = Some (replicate 32 0%Z, 0%Z)).
Proof.
  intros Hperm Hlen.
  exists (shuffled perm (emptyKey, 0%Z) (file_chunks file)).
  unfold WriteChunkHashes.
  rewrite put_each_then_End_shuffled, consume_all_hash_entries by done.
  split; [done|]. split; [by apply length_shuffled|].
  intros j Hj. split.
  - intros i c. by apply shuffled_real.
  - by apply shuffled_placeholder.
Qed.

Lemma WriteChunkHashes_wire_format_witness :
  ∃ slots : list (list Z * Z),
    WriteChunkHashes (mkFile 5 [([1%Z], 2%Z); ([2%Z], 3%Z)]) [2; 0; 1] []
    = ([] ++ mjoin (hash_entry <$> slots), None)
    ∧ length slots = 3
    ∧ ∀ j, j < 3 →
        (∀ i c, [2; 0; 1] !! i = Some j → [([1%Z], 2%Z); ([2%Z], 3%Z)] !! i = Some c →
                slots !! j = Some c)
        ∧ ((∀ i, [2; 0; 1] !! i = Some j → 2 ≤ i) →
           slots !! j = Some (replicate 32 0%Z, 0%Z)).
Proof.
  apply (WriteChunkHashes_wire_format (mkFile 5 [([1%Z], 2%Z); ([2%Z], 3%Z)]) [2; 0; 1] []).
  - compute_done.
  - simpl. lia.
Defined.

(** *** Sums and machine integers *)

Lemma wrap64_small z : (- 2 ^ 63 ≤ z < 2 ^ 63)%Z → wrap64 z = z.
Proof. intros Hz. unfold wrap64. rewrite Z.mod_small; lia. Qed.

Lemma sum_app (l k : list Z) :
  foldr Z.add 0%Z (l ++ k) = (foldr Z.add 0 l + foldr Z.add 0 k)%Z.
Proof. induction l as [|x l IH]; simpl; lia. Qed.

Lemma sum_Permutation (l k : list Z) :
  l ≡ₚ k → foldr Z.add 0%Z l = foldr Z.add 0%Z k.
Proof. induction 1; simpl; lia. Qed.

Lemma sum_nonneg (l : list Z) : Forall (λ x, 0 ≤ x)%Z l → (0 ≤ foldr Z.add 0 l)%Z.
Proof. induction 1; simpl; lia. Qed.

(** The real keys among the slots are the real keys of the file,
    rearranged. *)
Lemma real_slot_keys file perm :
  is_permutation perm → length (file_chunks file) ≤ length perm →
  filter (λ k, k ≠ emptyKey) (slot_keys file perm)
  ≡ₚ filter (λ k, k ≠ emptyKey) (file_chunks file).*1.
Proof.
  intros Hperm Hlen. unfold slot_keys.
  rewrite shuffled_Permutation by (by rewrite ?length_fmap).
  rewrite filter_app.
  assert (∀ n, filter (λ k, k ≠ emptyKey) (replicate n emptyKey) = []) as ->.
  { induction n as [|n IH]; [done|]. simpl. by rewrite filter_cons_False by (intros ?; done). }
  by rewrite app_nil_r.
Qed.

(** *** forEachChunk *)

Lemma read_bits_length n src src' bits :
  read_bits n src = (src', inr bits) → length bits = n.
Proof.
  revert src src' bits. induction n as [|n IH]; intros src src' bits; cbn [read_bits].
  - by intros [= _ <-].
  - destruct (ReadBit src) as [src1 [e|b]]; [done|].
    destruct (read_bits n src1) as [src2 [e|bs]] eqn:Hn; [done|].
    intros [= _ <-]. simpl. f_equal. by eapply IH.
Qed.

Section slots.
Context {U : Type}.
Variable storage : gmap (list Z) Chunk.
Variable f : Chunk → bool → U → U * option error.

Lemma forEachChunk_consume_outcome key w :
  slot_outcome storage f key w (forEachChunk_consume storage f key w).1
               (forEachChunk_consume storage f key w).2.
Proof.
  unfold forEachChunk_consume, next_bit.
  destruct (ReadBit (w_src w)) as [[r1 b1] [e|b]] eqn:Hbit; cbn [fst snd].
  { by eapply slot_rejected. }
  destruct (decide (key = emptyKey)) as [Hk|Hk].
  { destruct b; cbn [fst snd].
    - by eapply slot_rejected.
    - by eapply slot_skipped. }
  unfold Get. destruct (storage !! key) as [c|] eqn:Hget; cbn [fst snd].
  { unfold call. cbn [w_user with_src].
    destruct (f c b (w_user w)) as [u' r] eqn:Hf.
    destruct r; eapply (slot_called _ _ _ _ _ _ c b); simpl;
      rewrite ?Hf, <- ?app_assoc; done. }
  by eapply slot_rejected.
Qed.

Lemma call_events_app h calls1 calls2 :
  call_events h (calls1 ++ calls2)
  = call_events h calls1 ++ call_events (h + length calls1) calls2.
Proof.
  revert h. induction calls1 as [|[[k c] b] calls1 IH]; intros h; simpl.
  - by rewrite Nat.add_0_r.
  - rewrite IH. by rewrite Nat.add_succ_r.
Qed.

Lemma forEachChunk_consume_log_grown w0 key w :
  log_grown w0 w → log_grown w0 (forEachChunk_consume storage f key w).1.
Proof.
  intros (calls & Hlog & Hh).
  destruct (forEachChunk_consume_outcome key w)
    as [e _ Hl Hn _|_ _ _ Hl Hn _|c b _ _ _ _ _ Hl Hn].
  - exists calls. by rewrite Hl, Hn.
  - exists calls. by rewrite Hl, Hn.
  - exists (calls ++ [(key, c, b)]). rewrite Hl, Hn, Hlog, Hh.
    rewrite call_events_app, length_app. simpl.
    rewrite <- app_assoc. split; [done|lia].
Qed.

Lemma acquired_call_events h (calls : list (list Z * Chunk * bool)) :
  acquired (call_events h calls) = seq h (length calls).
Proof.
  revert h. induction calls as [|[[k c] b] calls IH]; intros h; [done|].
  unfold acquired in *. simpl. by rewrite IH.
Qed.

Lemma disposed_call_events h (calls : list (list Z * Chunk * bool)) :
  disposed (call_events h calls) = seq h (length calls).
Proof.
  revert h. induction calls as [|[[k c] b] calls IH]; intros h; [done|].
  unfold disposed in *. simpl. by rewrite IH.
Qed.

Lemma after_calls_app calls1 calls2 (u : U) :
  after_calls f (calls1 ++ calls2) u = after_calls f calls2 (after_calls f calls1 u).
Proof. unfold after_calls. apply foldl_app. Qed.

Lemma filter_real_cons_empty (l : list (list Z)) :
  filter (λ k, k ≠ emptyKey) (emptyKey :: l) = filter (λ k, k ≠ emptyKey) l.
Proof. by rewrite filter_cons_False by (intros ?; done). Qed.

Lemma filter_real_cons key (l : list (list Z)) :
  key ≠ emptyKey →
  filter (λ k, k ≠ emptyKey) (key :: l) = key :: filter (λ k, k ≠ emptyKey) l.
Proof. intros. by rewrite filter_cons_True. Qed.

(** Whatever the result of a run over some slots: the calls of [f] it
    made are for the first so many slots with a real key, in order. *)
Lemma consume_all_calls slots : ∀ w,
  ∃ calls,
    calls.*1.*1 `prefix_of` filter (λ k, k ≠ emptyKey) slots
    ∧ Forall (λ call : list Z * Chunk * bool, storage !! call.1.1 = Some call.1.2) calls
    ∧ w_user (consume_all (forEachChunk_consume storage f) slots w).1
      = after_calls f calls (w_user w)
    ∧ w_log (consume_all (forEachChunk_consume storage f) slots w).1
      = w_log w ++ call_events (w_handles w) calls
    ∧ w_handles (consume_all (forEachChunk_consume storage f) slots w).1
      = w_handles w + length calls
    ∧ ((consume_all (forEachChunk_consume storage f) slots w).2 = None →
       calls.*1.*1 = filter (λ k, k ≠ emptyKey) slots).
Proof.
  induction slots as [|key slots IH]; intros w.
  { exists []. simpl. rewrite app_nil_r, Nat.add_0_r. by repeat split. }
  cbn [consume_all]. unfold and_then.
  pose proof (forEachChunk_consume_outcome key w) as Hout.
  destruct (forEachChunk_consume storage f key w) as [w1 r1]. cbn [fst snd] in Hout.
  destruct Hout as [e -> Hl Hn Hu | -> -> _ Hl Hn Hu | c b Hk Hget _ Hu Hr Hl Hn].
  - exists []. cbn [fst snd]. rewrite Hl, Hn, Hu. simpl.
    rewrite app_nil_r, Nat.add_0_r. repeat split; try done. apply prefix_nil.
  - destruct (IH w1) as (calls & Hpre & Hst & Hu' & Hl' & Hn' & Hok).
    exists calls. rewrite filter_real_cons_empty, <- Hl, <- Hn, <- Hu. done.
  - destruct r1 as [e|].
    + exists [(key, c, b)]. cbn [fst snd]. rewrite filter_real_cons by done.
      rewrite Hu, Hl, Hn. simpl. repeat split; try done; try lia.
      * apply prefix_cons, prefix_nil.
      * by constructor.
    + destruct (IH w1) as (calls & Hpre & Hst & Hu' & Hl' & Hn' & Hok).
      exists ((key, c, b) :: calls). rewrite filter_real_cons by done.
      rewrite Hu', Hl', Hn', Hu, Hl, Hn. simpl. rewrite <- app_assoc. simpl.
      repeat split; try done; try lia.
      * by apply prefix_cons.
      * by constructor.
      * intros Hnone. f_equal. by apply Hok.
Qed.

Lemma calls_of_cons_empty slots b bits :
  calls_of storage (emptyKey :: slots) (b :: bits) = calls_of storage slots bits.
Proof.
  unfold calls_of. cbn [zip zip_with omap list_omap fst snd].
  by rewrite decide_True.
Qed.

Lemma calls_of_cons_real key c slots b bits :
  key ≠ emptyKey → storage !! key = Some c →
  calls_of storage (key :: slots) (b :: bits)
  = (key, c, b) :: calls_of storage slots bits.
Proof.
  intros Hk Hc. unfold calls_of. cbn [zip zip_with omap list_omap fst snd].
  by rewrite decide_False, Hc.
Qed.

(** A run that gets through some slots: the bits it read, and the calls
    of [f] it made, none of which failed. *)
Lemma consume_all_ok_calls slots : ∀ w w',
  consume_all (forEachChunk_consume storage f) slots w = (w', None) →
  ∃ bits,
    read_bits (length slots) (w_src w) = (w_src w', inr bits)
    ∧ Forall2 (λ key b, key = emptyKey → b = false) slots bits
    ∧ run_calls f (calls_of storage slots bits) (w_user w) = (w_user w', None)
    ∧ w_log w' = w_log w ++ call_events (w_handles w) (calls_of storage slots bits)
    ∧ (calls_of storage slots bits).*1.*1 = filter (λ k, k ≠ emptyKey) slots.
Proof.
  induction slots as [|key slots IH]; intros w w'.
  { intros [= <-]. exists []. simpl. by rewrite app_nil_r. }
  cbn [consume_all length read_bits]. unfold and_then.
  pose proof (forEachChunk_consume_outcome key w) as Hout.
  destruct (forEachChunk_consume storage f key w) as [w1 r1]. cbn [fst snd] in Hout.
  destruct Hout as [e -> Hl Hn Hu | -> -> Hbit Hl Hn Hu | c b Hk Hget Hbit Hu Hr Hl Hn];
    [done| |].
  - intros Hrest. destruct (IH _ _ Hrest) as (bits & Hbits & Hf2 & Hrun & Hlog & Hkeys).
    exists (false :: bits). rewrite Hbit, Hbits, calls_of_cons_empty.
    rewrite filter_real_cons_empty, <- Hl, <- Hn, <- Hu.
    repeat split; try done. by constructor.
  - destruct r1 as [e|]; [done|].
    intros Hrest. destruct (IH _ _ Hrest) as (bits & Hbits & Hf2 & Hrun & Hlog & Hkeys).
    exists (b :: bits).
    rewrite Hbit, Hbits, (calls_of_cons_real key c) by done.
    rewrite filter_real_cons by done. cbn [run_calls call_events fst snd].
    unfold and_then. destruct (f c b (w_user w)) as [u1 r] eqn:Hf. simpl in Hu, Hr.
    subst u1 r. rewrite Hrun, Hlog, Hl, Hn, <- app_assoc. simpl.
    repeat split; try done.
    + by constructor.
    + by f_equal.
Qed.

(** C9. Whatever [forEachChunk] returns, the log has grown by whole
    groups "handle taken from the store, [f] called on it, handle disposed
    of", each with a handle of its own: every handle taken is disposed of
    exactly once, after the call of [f] on it and before [forEachChunk]
    returns.  In particular, when [f] returns an error for a chunk, the
    slot returns that error with the handle disposed of after the call. *)
Theorem chunk_handles_disposed_once (file : File) (perm : list nat) (w : World U) :
  let w' := (forEachChunk storage file perm f w).1 in
  (∃ calls,
     w_log w' = w_log w ++ call_events (w_handles w) calls
     ∧ acquired (call_events (w_handles w) calls) = seq (w_handles w) (length calls)
     ∧ disposed (call_events (w_handles w) calls) = seq (w_handles w) (length calls))
  ∧ (∀ key c b wa src' u' e,
       key ≠ emptyKey → storage !! key = Some c →
       ReadBit (w_src wa) = (src', inr b) →
       f c b (w_user wa) = (u', Some e) →
       ∃ wb, forEachChunk_consume storage f key wa = (wb, Some e)
             ∧ w_user wb = u'
             ∧ w_log wb = w_log wa ++ [EvGet (w_handles wa) key;
                                       EvCall (w_handles wa) b;
                                       EvDispose (w_handles wa)]).
Proof.
  split.
  - assert (log_grown w (forEachChunk storage file perm f w).1) as (calls & Hlog & _).
    { unfold forEachChunk, and_then.
      pose proof (put_each_then_End_keeps (forEachChunk_consume storage f)
                    (log_grown w) (forEachChunk_consume_log_grown w)
                    (file_chunks file).*1
                    (NewStreamShuffler perm emptyKey (forEachChunk_consume storage f))
                    (with_src (w_reader w, newBitReader) w) eq_refl) as Hkeep.
      destruct (put_each_then_End _ _ _) as [w1 [e|]]; cbn [fst] in *.
      - apply Hkeep. exists []. simpl. by rewrite app_nil_r, Nat.add_0_r.
      - unfold expect_end. destruct (ReadByte (w_reader w1)) as [r' res].
        assert (log_grown w w1) as (calls & Hl & Hn).
        { apply Hkeep. exists []. simpl. by rewrite app_nil_r, Nat.add_0_r. }
        exists calls. by destruct (decide (res = inl EOF)). }
    exists calls. by rewrite acquired_call_events, disposed_call_events.
  - intros key c b wa src' u' e Hk Hget Hbit Hf.
    unfold forEachChunk_consume, next_bit. rewrite Hbit. cbv beta iota.
    rewrite decide_False by done.
    unfold Get. rewrite Hget. unfold call. cbn [w_user with_src].
    rewrite Hf. eexists. split; [done|]. simpl.
    by rewrite <- !app_assoc.
Qed.

(** The other way round: when the wishlist holds a bit for every slot, none
    set for a placeholder, the store holds every real key and no call of [f]
    fails, the run gets through all slots. *)
Lemma consume_all_succeeds slots : ∀ (w : World U) bits src' u',
  read_bits (length slots) (w_src w) = (src', inr bits) →
  Forall2 (λ key b, key = emptyKey → b = false) slots bits →
  Forall (λ key, key ≠ emptyKey → is_Some (storage !! key)) slots →
  run_calls f (calls_of storage slots bits) (w_user w) = (u', None) →
  consume_all (forEachChunk_consume storage f) slots w
  = (mkWorld src'.1 src'.2 (w_handles w + length (calls_of storage slots bits))
       (w_log w ++ call_events (w_handles w) (calls_of storage slots bits)) u',
     None).
Proof.
  induction slots as [|key slots IH]; intros w bits src' u' Hbits Hf2 Hst Hrun.
  - cbn [length read_bits] in Hbits. injection Hbits as <- <-.
    cbn in Hrun. injection Hrun as <-. destruct w. cbn.
    by rewrite app_nil_r, Nat.add_0_r.
  - cbn [length read_bits] in Hbits.
    destruct (ReadBit (w_src w)) as [src1 [e|b]] eqn:Hbit; [done|].
    destruct (read_bits (length slots) src1) as [src2 [e|bs]] eqn:Hrest; [done|].
    injection Hbits as <- <-.
    apply Forall2_cons in Hf2 as [Hb Hf2]. apply Forall_cons in Hst as [Hkey Hst].
    cbn [consume_all]. unfold and_then.
    unfold forEachChunk_consume at 1. unfold next_bit. rewrite Hbit. cbv beta iota.
    destruct (decide (key = emptyKey)) as [->|Hk].
    + rewrite (Hb eq_refl). rewrite calls_of_cons_empty in Hrun |- *.
      rewrite (IH (with_src src1 w) bs src2 u'); [done| |done|done|done].
      by destruct src1.
    + destruct (Hkey Hk) as [c Hc].
      rewrite (calls_of_cons_real key c) in Hrun |- * by done.
      cbn [run_calls fst snd] in Hrun. unfold and_then in Hrun.
      unfold Get. cbn [w_handles w_log with_src]. rewrite Hc.
      unfold call. cbn [w_user with_src].
      destruct (f c b (w_user w)) as [u1 [e|]] eqn:Hf; [done|].
      unfold Dispose. cbn [w_reader w_bits w_handles w_log w_user fst snd].
      rewrite (IH _ bs src2 u'); [| |done|done|done].
      * cbn [w_handles w_log length call_events]. f_equal. f_equal; [lia|].
        by rewrite <- !app_assoc.
      * cbn. by destruct src1.
Qed.

(** Whatever the result of a run over some slots: its calls of [f] are in
    the log, and either all of them returned nil, or all but the last did and
    the error of the last is the result of the run. *)
Lemma consume_all_run_calls slots : ∀ (w : World U),
  ∃ calls,
    w_log (consume_all (forEachChunk_consume storage f) slots w).1
    = w_log w ++ call_events (w_handles w) calls
    ∧ (run_calls f calls (w_user w)
       = (w_user (consume_all (forEachChunk_consume storage f) slots w).1, None)
       ∨ ∃ finished last u1 e,
           calls = finished ++ [last]
           ∧ run_calls f finished (w_user w) = (u1, None)
           ∧ f last.1.2 last.2 u1
             = (w_user (consume_all (forEachChunk_consume storage f) slots w).1, Some e)
           ∧ (consume_all (forEachChunk_consume storage f) slots w).2 = Some e).
Proof.
  induction slots as [|key slots IH]; intros w.
  { exists []. simpl. rewrite app_nil_r. split; [done|by left]. }
  cbn [consume_all]. unfold and_then.
  pose proof (forEachChunk_consume_outcome key w) as Hout.
  destruct (forEachChunk_consume storage f key w) as [w1 r1]. cbn [fst snd] in Hout.
  destruct Hout as [e -> Hl Hn Hu | -> -> _ Hl Hn Hu | c b Hk Hget _ Hu Hr Hl Hn].
  - exists []. cbn [fst snd]. rewrite Hl, Hu. simpl. rewrite app_nil_r.
    split; [done|by left].
  - destruct (IH w1) as (calls & Hlog & Hcalls).
    exists calls. rewrite Hlog, Hl, Hn, <- Hu. done.
  - destruct (f c b (w_user w)) as [u1 rf] eqn:Hf. cbn [fst snd] in Hu, Hr. subst r1.
    destruct rf as [e|].
    + exists [(key, c, b)]. cbn [fst snd]. rewrite Hl. split; [done|].
      right. exists [], (key, c, b), (w_user w), e. cbn [fst snd]. rewrite Hu.
      by rewrite Hf.
    + destruct (IH w1) as (calls & Hlog & Hcalls).
      exists ((key, c, b) :: calls). rewrite Hlog, Hl, Hn, <- app_assoc.
      split; [done|]. rewrite Hu in Hcalls.
      destruct Hcalls as [Hall|(finished & last & u2 & e & -> & Hdone & Hlast & Hres)].
      * left. cbn [run_calls fst snd]. unfold and_then. by rewrite Hf.
      * right. exists ((key, c, b) :: finished), last, u2, e.
        split; [done|]. split; [|done].
        cbn [run_calls fst snd]. unfold and_then. by rewrite Hf.
Qed.

End slots.

Section forEachChunk.
Context {U : Type}.
Variable storage : gmap (list Z) Chunk.
Variable file : File.
Variable perm : list nat.
Variable f : Chunk → bool → U → U * option error.
Hypothesis perm_ok : is_permutation perm.
Hypothesis chunks_fit : length (file_chunks file) ≤ length perm.

Lemma forEachChunk_slots w :
  forEachChunk storage file perm f w
  = (consume_all (forEachChunk_consume storage f) (slot_keys file perm) ;;; expect_end)
      (with_src (w_reader w, newBitReader) w).
Proof.
  unfold forEachChunk, and_then, slot_keys.
  rewrite put_each_then_End_shuffled; [done|done|].
  by rewrite length_fmap.
Qed.

Lemma length_slot_keys : length (slot_keys file perm) = length perm.
Proof. apply length_shuffled. Qed.

Lemma forEachChunk_at_slot w j key wj :
  slot_keys file perm !! j = Some key →
  consume_all (forEachChunk_consume storage f) (take j (slot_keys file perm))
    (with_src (w_reader w, newBitReader) w) = (wj, None) →
  forEachChunk storage file perm f w
  = (forEachChunk_consume storage f key ;;;
     consume_all (forEachChunk_consume storage f) (drop (S j) (slot_keys file perm)) ;;;
     expect_end) wj.
Proof.
  intros Hj Hreach. rewrite forEachChunk_slots.
  unfold and_then at 1. rewrite (consume_all_middle _ _ j key _ Hj).
  unfold and_then at 1. rewrite Hreach.
  unfold and_then. by destruct (forEachChunk_consume storage f key wj) as [? [?|]];
    [|destruct (consume_all _ _ _) as [? [?|]]].
Qed.

(** Whatever happens at a slot, its bit source is the one left by a
    single [ReadBit]. *)
Lemma forEachChunk_consume_src key w :
  w_src (forEachChunk_consume storage f key w).1 = (ReadBit (w_src w)).1.
Proof.
  unfold forEachChunk_consume, next_bit.
  destruct (ReadBit (w_src w)) as [[r1 b1] [e|b]]; simpl; [done|].
  destruct (decide (key = emptyKey)); [by destruct b|].
  unfold Get. destruct (storage !! key) as [c|]; simpl; [|done].
  unfold call. simpl. by destruct (f c b (w_user w)) as [u' [e|]].
Qed.

Lemma forEachChunk_consume_ok_bit key w w1 :
  forEachChunk_consume storage f key w = (w1, None) →
  ∃ b, ReadBit (w_src w) = (w_src w1, inr b).
Proof.
  intros Hc. pose proof (forEachChunk_consume_src key w) as Hs.
  rewrite Hc in Hs. unfold forEachChunk_consume, next_bit in Hc.
  destruct (ReadBit (w_src w)) as [sa [e|b]]; [done|].
  exists b. cbn [fst] in Hs. by rewrite Hs.
Qed.

Lemma consume_all_reads_bits slots w w' :
  consume_all (forEachChunk_consume storage f) slots w = (w', None) →
  ∃ bits, read_bits (length slots) (w_src w) = (w_src w', inr bits).
Proof.
  revert w. induction slots as [|key slots IH]; intros w;
    cbn [consume_all length read_bits].
  - intros [= <-]. by exists [].
  - unfold and_then.
    destruct (forEachChunk_consume storage f key w) as [w1 [e|]] eqn:Hc; [done|].
    intros Hrest. destruct (forEachChunk_consume_ok_bit _ _ _ Hc) as [b ->].
    destruct (IH _ Hrest) as [bits ->]. by exists (b :: bits).
Qed.

(** C4. When the run of [forEachChunk] has reached a slot that carries the
    empty key and reads the bit [b] for it: if [b] is true the whole
    iteration stops there with the spurious-request error; if [b] is
    false the slot changes nothing but the bit source (no handle is
    taken from storage, nothing is logged, the state of [f] is untouched)
    and the iteration goes on with the next slot. *)
Theorem placeholder_slot_policy w j wj src' b :
  slot_keys file perm !! j = Some emptyKey →
  consume_all (forEachChunk_consume storage f) (take j (slot_keys file perm))
    (with_src (w_reader w, newBitReader) w) = (wj, None) →
  ReadBit (w_src wj) = (src', inr b) →
  if b then
    forEachChunk storage file perm f w = (with_src src' wj, Some ErrSpuriousRequest)
  else
    forEachChunk_consume storage f emptyKey wj = (with_src src' wj, None)
    ∧ w_log (with_src src' wj) = w_log wj
    ∧ w_handles (with_src src' wj) = w_handles wj
    ∧ w_user (with_src src' wj) = w_user wj
    ∧ forEachChunk storage file perm f w
      = (consume_all (forEachChunk_consume storage f) (drop (S j) (slot_keys file perm)) ;;;
         expect_end) (with_src src' wj).
Proof.
  intros Hj Hreach Hbit.
  assert (forEachChunk_consume storage f emptyKey wj
          = (with_src src' wj, if b then Some ErrSpuriousRequest else None)) as Hslot.
  { unfold forEachChunk_consume, next_bit. rewrite Hbit.
    rewrite decide_True by done. by destruct b. }
  rewrite (forEachChunk_at_slot w j emptyKey wj Hj Hreach).
  unfold and_then at 1. rewrite Hslot. destruct b; [done|].
  repeat split. unfold and_then at 1. by rewrite Hslot.
Qed.

(** C5. Every slot consumes one bit: the bit source after a slot is the
    one a single [ReadBit] leaves, and a run that gets through all N slots
    has read exactly N bits.  If [ReadBit] fails when the run has reached
    some slot, [forEachChunk] fails with the wishlist-too-short error;
    if after all slots the byte reader answers anything but [io.EOF],
    [forEachChunk] fails with the wishlist-too-long error. *)
Theorem wishlist_length_checks w :
  let run := consume_all (forEachChunk_consume storage f) in
  let w0 := with_src (w_reader w, newBitReader) w in
  (∀ key wa,
     w_src (forEachChunk_consume storage f key wa).1 = (ReadBit (w_src wa)).1)
  ∧ (∀ w', run (slot_keys file perm) w0 = (w', None) →
       ∃ bits, read_bits (length perm) (w_src w0) = (w_src w', inr bits)
               ∧ length bits = length perm)
  ∧ (∀ j wj src' e, j < length perm →
       run (take j (slot_keys file perm)) w0 = (wj, None) →
       ReadBit (w_src wj) = (src', inl e) →
       forEachChunk storage file perm f w
       = (with_src src' wj, Some (ErrWishlistTooShort e)))
  ∧ (∀ w' r' res,
       run (slot_keys file perm) w0 = (w', None) →
       ReadByte (w_reader w') = (r', res) → res ≠ inl EOF →
       forEachChunk storage file perm f w
       = (with_src (r', w_bits w') w', Some ErrWishlistTooLong)).
Proof.
  intros run w0. split; [apply forEachChunk_consume_src|]. split; [|split].
  - intros w' Hrun. destruct (consume_all_reads_bits _ _ _ Hrun) as [bits Hbits].
    rewrite length_slot_keys in Hbits. exists bits. split; [done|].
    by eapply read_bits_length.
  - intros j wj src' e Hj Hreach Hbit.
    destruct (lookup_lt_is_Some_2 (slot_keys file perm) j) as [key Hkey];
      [by rewrite length_slot_keys|].
    rewrite (forEachChunk_at_slot w j key wj Hkey Hreach).
    unfold and_then at 1. unfold forEachChunk_consume, next_bit. by rewrite Hbit.
  - intros w' r' res Hrun Hread Hres. rewrite forEachChunk_slots.
    unfold and_then. fold w0. unfold run in Hrun. rewrite Hrun.
    unfold expect_end. rewrite Hread. by rewrite decide_False.
Qed.

(** C10. Once the run has got through all slots, the answer of the last
    [ReadByte] decides: [io.EOF] gives success, and everything else, be it
    a further byte or an error of the byte reader, gives the same
    wishlist-too-long error, which does not carry the reader's error. *)
Theorem final_read_error_is_too_long w w' r' res :
  consume_all (forEachChunk_consume storage f) (slot_keys file perm)
    (with_src (w_reader w, newBitReader) w) = (w', None) →
  ReadByte (w_reader w') = (r', res) →
  forEachChunk storage file perm f w
  = (with_src (r', w_bits w') w',
     match res with
     | inl EOF => None
     | inl _ => Some ErrWishlistTooLong
     | inr _ => Some ErrWishlistTooLong
     end).
Proof.
  intros Hrun Hread. rewrite forEachChunk_slots.
  unfold and_then. rewrite Hrun. unfold expect_end. rewrite Hread.
  destruct res as [e|b].
  - destruct (decide (e = EOF)) as [->|He]; [by rewrite decide_True|].
    rewrite decide_False by congruence. by destruct e.
  - by rewrite decide_False.
Qed.

Lemma expect_end_user (w : World U) : w_user (expect_end w).1 = w_user w.
Proof.
  unfold expect_end. destruct (ReadByte (w_reader w)) as [r' res].
  by destruct (decide (res = inl EOF)).
Qed.

(** The state of [f] after [forEachChunk], whatever it returns. *)
Lemma forEachChunk_user w :
  ∃ calls,
    calls.*1.*1 `prefix_of` filter (λ k, k ≠ emptyKey) (slot_keys file perm)
    ∧ Forall (λ call : list Z * Chunk * bool, storage !! call.1.1 = Some call.1.2) calls
    ∧ w_user (forEachChunk storage file perm f w).1 = after_calls f calls (w_user w).
Proof.
  rewrite forEachChunk_slots. unfold and_then.
  destruct (consume_all_calls storage f (slot_keys file perm)
              (with_src (w_reader w, newBitReader) w))
    as (calls & Hpre & Hst & Hu & _).
  exists calls. split; [done|]. split; [done|].
  destruct (consume_all _ _ _) as [w1 [e|]]; cbn [fst] in *; [done|].
  by rewrite expect_end_user.
Qed.

(** The state of [f] after a successful [forEachChunk]. *)
Lemma forEachChunk_ok_user w w' :
  forEachChunk storage file perm f w = (w', None) →
  ∃ bits src',
    read_bits (length perm) (w_reader w, newBitReader) = (src', inr bits)
    ∧ run_calls f (calls_of storage (slot_keys file perm) bits) (w_user w)
      = (w_user w', None)
    ∧ (calls_of storage (slot_keys file perm) bits).*1.*1
      = filter (λ k, k ≠ emptyKey) (slot_keys file perm).
Proof.
  rewrite forEachChunk_slots. unfold and_then.
  destruct (consume_all _ _ _) as [w1 [e|]] eqn:Hrun; [done|].
  intros Hend.
  destruct (consume_all_ok_calls storage f _ _ _ Hrun)
    as (bits & Hbits & _ & Hcalls & _ & Hkeys).
  rewrite length_slot_keys in Hbits. exists bits, (w_src w1).
  split; [done|]. split; [|done].
  pose proof (expect_end_user w1) as Hu. rewrite Hend in Hu. cbn [fst] in Hu.
  by rewrite Hu.
Qed.

(** When the wishlist holds exactly a bit for every slot, none set for a
    placeholder, the store holds every real key and no call of [f] fails,
    [forEachChunk] returns nil. *)
Lemma forEachChunk_succeeds w bits src' r' u' :
  read_bits (length perm) (w_reader w, newBitReader) = (src', inr bits) →
  Forall2 (λ key b, key = emptyKey → b = false) (slot_keys file perm) bits →
  Forall (λ key, key ≠ emptyKey → is_Some (storage !! key)) (slot_keys file perm) →
  run_calls f (calls_of storage (slot_keys file perm) bits) (w_user w) = (u', None) →
  ReadByte src'.1 = (r', inl EOF) →
  forEachChunk storage file perm f w
  = (mkWorld r' src'.2
       (w_handles w + length (calls_of storage (slot_keys file perm) bits))
       (w_log w ++ call_events (w_handles w) (calls_of storage (slot_keys file perm) bits))
       u',
     None).
Proof.
  intros Hbits Hf2 Hst Hrun Hend. rewrite forEachChunk_slots. unfold and_then.
  rewrite (consume_all_succeeds storage f (slot_keys file perm) _ bits src' u');
    [|by rewrite length_slot_keys|done|done|done].
  unfold expect_end. cbn [w_reader w_bits w_handles w_log w_user with_src fst snd].
  rewrite Hend. by rewrite decide_True.
Qed.

Lemma expect_end_log_any (w : World U) : w_log (expect_end w).1 = w_log w.
Proof.
  unfold expect_end. destruct (ReadByte (w_reader w)) as [r' res].
  by destruct (decide (res = inl EOF)).
Qed.

(** Whatever [forEachChunk] returns: its calls of [f] are in the log, and
    either all of them returned nil, or all but the last did and the error of
    the last is what [forEachChunk] returns. *)
Lemma forEachChunk_run_calls w :
  ∃ calls,
    w_log (forEachChunk storage file perm f w).1
    = w_log w ++ call_events (w_handles w) calls
    ∧ (run_calls f calls (w_user w) = (w_user (forEachChunk storage file perm f w).1, None)
       ∨ ∃ finished last u1 e,
           calls = finished ++ [last]
           ∧ run_calls f finished (w_user w) = (u1, None)
           ∧ f last.1.2 last.2 u1
             = (w_user (forEachChunk storage file perm f w).1, Some e)
           ∧ (forEachChunk storage file perm f w).2 = Some e).
Proof.
  rewrite forEachChunk_slots. unfold and_then.
  destruct (consume_all_run_calls storage f (slot_keys file perm)
              (with_src (w_reader w, newBitReader) w)) as (calls & Hlog & Hcalls).
  exists calls.
  destruct (consume_all _ _ _) as [w1 [e|]]; cbn [fst snd] in *; [done|].
  rewrite expect_end_log_any, expect_end_user. split; [done|].
  destruct Hcalls as [?|(finished & last & u1 & e & _ & _ & _ & ?)]; [by left|done].
Qed.

End forEachChunk.

(** *** WriteChunkData *)

Lemma monotone_snoc snaps y z :
  monotone snaps → last snaps = Some y → (z.1 ≤ y.1)%Z → (y.2 ≤ z.2)%Z →
  monotone (snaps ++ [z]).
Proof.
  intros Hm Hlast Hz1 Hz2 i a b Ha Hb.
  destruct (decide (S i < length snaps)) as [Hi|Hi].
  - rewrite lookup_app_l in Ha by lia. rewrite lookup_app_l in Hb by lia. eauto.
  - pose proof (lookup_lt_Some _ _ _ Hb) as Hlt. rewrite length_app in Hlt. simpl in Hlt.
    assert (S i = length snaps) as Hi' by lia.
    rewrite lookup_app_r in Hb by lia.
    replace (S i - length snaps) with 0 in Hb by lia. injection Hb as <-.
    rewrite lookup_app_l in Ha by lia.
    rewrite last_lookup in Hlast. replace (pred (length snaps)) with i in Hlast by lia.
    rewrite Hlast in Ha. by injection Ha as <-.
Qed.

Section transfer.
Context {W Obs : Type} `{Writer W}.
Variable cb : option (Z → Z → Obs → Obs).

Lemma notify_all_app snaps1 snaps2 (obs : Obs) :
  notify_all cb (snaps1 ++ snaps2) obs = notify_all cb snaps2 (notify_all cb snaps1 obs).
Proof. unfold notify_all. destruct cb; [apply foldl_app|done]. Qed.

Lemma notify_one (t : Transfer W Obs) :
  notify cb t
  = mkTransfer (t_out t) (bytesToTransfer t) (bytesTransferred t)
      (notify_all cb [(bytesToTransfer t, bytesTransferred t)] (t_observer t)).
Proof. unfold notify, notify_all. destruct cb; [done|by destruct t]. Qed.

(** One call of the function literal: when it succeeds the counters move
    as [status_after] says and the callback sees them; when it fails
    counters and observer are as before. *)
Lemma WriteChunkData_each_status key c b (t : Transfer W Obs) :
  match (WriteChunkData_each cb c b t).2 with
  | None =>
      (bytesToTransfer (WriteChunkData_each cb c b t).1,
       bytesTransferred (WriteChunkData_each cb c b t).1)
      = status_after (bytesToTransfer t, bytesTransferred t) (key, c, b)
      ∧ t_observer (WriteChunkData_each cb c b t).1
        = notify_all cb [status_after (bytesToTransfer t, bytesTransferred t) (key, c, b)]
            (t_observer t)
  | Some _ =>
      bytesToTransfer (WriteChunkData_each cb c b t).1 = bytesToTransfer t
      ∧ bytesTransferred (WriteChunkData_each cb c b t).1 = bytesTransferred t
      ∧ t_observer (WriteChunkData_each cb c b t).1 = t_observer t
  end.
Proof.
  unfold WriteChunkData_each, status_after. destruct b; cbn [fst snd].
  - destruct (writeVarint (chunk_size c) (t_out t)) as [o1 [e|]]; [done|].
    unfold io_Copy. destruct (Write (chunk_data c) o1) as [o2 [e|]]; [done|].
    cbn [fst snd]. by rewrite notify_one.
  - by rewrite notify_one.
Qed.

Lemma run_calls_status calls : ∀ (t t' : Transfer W Obs),
  run_calls (WriteChunkData_each cb) calls t = (t', None) →
  (bytesToTransfer t', bytesTransferred t')
  = foldl status_after (bytesToTransfer t, bytesTransferred t) calls
  ∧ t_observer t'
    = notify_all cb (statuses (bytesToTransfer t, bytesTransferred t) calls) (t_observer t).
Proof.
  induction calls as [|[[key c] b] calls IH]; intros t t'; cbn [run_calls].
  - intros [= <-]. split; [done|]. unfold notify_all. by destruct cb.
  - unfold and_then. cbn [fst snd].
    pose proof (WriteChunkData_each_status key c b t) as Hst.
    destruct (WriteChunkData_each cb c b t) as [t1 [e|]]; [done|].
    cbn [fst snd] in Hst. destruct Hst as [Hc Ho].
    intros Hrest. destruct (IH _ _ Hrest) as [Hc' Ho'].
    rewrite Hc', Ho', Ho, Hc. split; [done|].
    cbn [statuses]. by rewrite <- notify_all_app.
Qed.

Lemma after_calls_observer calls : ∀ (t : Transfer W Obs),
  ∃ snaps, t_observer (after_calls (WriteChunkData_each cb) calls t)
           = notify_all cb snaps (t_observer t).
Proof.
  induction calls as [|[[key c] b] calls IH]; intros t.
  - exists []. unfold notify_all. by destruct cb.
  - unfold after_calls in *. cbn [foldl fst snd].
    destruct (IH (WriteChunkData_each cb c b t).1) as [snaps ->].
    pose proof (WriteChunkData_each_status key c b t) as Hst.
    destruct (WriteChunkData_each cb c b t).2.
    + destruct Hst as (_ & _ & ->). by exists snaps.
    + destruct Hst as [_ ->]. eexists (_ :: snaps). by rewrite <- notify_all_app.
Qed.

End transfer.

Lemma calls_of_stored (storage : gmap (list Z) Chunk) slots bits :
  Forall (λ call : list Z * Chunk * bool, storage !! call.1.1 = Some call.1.2)
         (calls_of storage slots bits).
Proof.
  apply Forall_forall. intros call Hin. unfold calls_of in Hin.
  apply list_elem_of_omap in Hin as ([key b] & _ & Hcall). cbn [fst snd] in Hcall.
  destruct (decide (key = emptyKey)); [done|].
  destruct (storage !! key) as [c|] eqn:Hc; [|done].
  injection Hcall as <-. done.
Qed.

Lemma data_stream_cons call calls :
  data_stream (call :: calls) = data_stream [call] ++ data_stream calls.
Proof. unfold data_stream. simpl. by rewrite app_nil_r. Qed.

Lemma data_stream_length calls :
  Forall (λ call : list Z * Chunk * bool,
            chunk_size call.1.2 = Z.of_nat (length (chunk_data call.1.2))) calls →
  Z.of_nat (length (data_stream calls)) = requested_length calls.
Proof.
  induction 1 as [|[[key c] b] calls Hc _ IH]; [done|].
  rewrite (data_stream_cons _ calls), length_app, Nat2Z.inj_add, IH.
  unfold requested_length, data_stream. cbn [fmap list_fmap foldr fst snd mjoin list_join].
  cbn [fst snd] in Hc. rewrite app_nil_r. destruct b; [|simpl; lia].
  rewrite length_app, Nat2Z.inj_add, Hc. lia.
Qed.

Section buffer.
Context {Obs : Type}.
Variable cb : option (Z → Z → Obs → Obs).

Lemma WriteChunkData_each_buffer key c b (t : Transfer (list Z) Obs) :
  (WriteChunkData_each cb c b t).2 = None
  ∧ t_out (WriteChunkData_each cb c b t).1 = t_out t ++ data_stream [(key, c, b)].
Proof.
  unfold WriteChunkData_each, data_stream. destruct b; cbn [fst snd].
  - unfold writeVarint, io_Copy, Write, buffer_Writer. cbn [fst snd].
    rewrite notify_one. cbn. by rewrite !app_nil_r, <- app_assoc.
  - rewrite notify_one. cbn. by rewrite app_nil_r.
Qed.

Lemma run_calls_buffer calls : ∀ (t t' : Transfer (list Z) Obs),
  run_calls (WriteChunkData_each cb) calls t = (t', None) →
  t_out t' = t_out t ++ data_stream calls.
Proof.
  induction calls as [|[[key c] b] calls IH]; intros t t'; cbn [run_calls].
  - intros [= <-]. unfold data_stream. simpl. by rewrite app_nil_r.
  - unfold and_then. cbn [fst snd].
    destruct (WriteChunkData_each_buffer key c b t) as [Hr Ho].
    destruct (WriteChunkData_each cb c b t) as [t1 r]. cbn [fst snd] in *. subst r.
    intros Hrest. rewrite (IH _ _ Hrest), Ho, (data_stream_cons (key, c, b) calls).
    by rewrite app_assoc.
Qed.
End buffer.

Lemma run_calls_buffer_total {Obs : Type} (cb : option (Z → Z → Obs → Obs)) calls :
  ∀ t : Transfer (list Z) Obs,
    ∃ t', run_calls (WriteChunkData_each cb) calls t = (t', None).
Proof.
  induction calls as [|[[key c] b] calls IH]; intros t; cbn [run_calls].
  - by eexists.
  - unfold and_then. cbn [fst snd].
    destruct (WriteChunkData_each_buffer cb key c b t) as [Hr _].
    destruct (WriteChunkData_each cb c b t) as [t1 r]. cbn [snd] in Hr. subst r.
    apply IH.
Qed.

(** C6. With a writer that accepts everything: for a requested chunk the
    function literal of [WriteChunkData] appends the varint of the chunk's
    size and the chunk's bytes to the output and adds the number of bytes
    copied to [bytesTransferred]; for a chunk that is not requested it writes
    nothing and takes the chunk's size off [bytesToTransfer].  When the
    wishlist holds exactly one bit for every slot, none set for a placeholder,
    and the store holds the chunks, [WriteChunkData] returns nil; and whenever
    it returns nil its output has grown by exactly these groups for the
    requested chunks in slot order, so that its length is the sum of the sizes
    of the requested chunks and of the lengths of their varint prefixes. *)
Theorem WriteChunkData_stream {Obs : Type} (storage : gmap (list Z) Chunk)
    (file : File) (perm : list nat) (cb : option (Z → Z → Obs → Obs))
    (w : World (Transfer (list Z) Obs)) :
  is_permutation perm → length (file_chunks file) ≤ length perm →
  sizes_honest storage →
  (∀ c (t : Transfer (list Z) Obs),
     WriteChunkData_each cb c true t
     = (notify cb (mkTransfer (t_out t ++ encode_varint (chunk_size c) ++ chunk_data c)
                     (bytesToTransfer t)
                     (wrap64 (bytesTransferred t + Z.of_nat (length (chunk_data c))))
                     (t_observer t)), None))
  ∧ (∀ c (t : Transfer (list Z) Obs),
       WriteChunkData_each cb c false t
       = (notify cb (mkTransfer (t_out t)
                       (wrap64 (bytesToTransfer t - chunk_size c))
                       (bytesTransferred t) (t_observer t)), None))
  ∧ (∀ bits src' r',
       read_bits (length perm) (w_reader w, newBitReader) = (src', inr bits) →
       Forall2 (λ key b, key = emptyKey → b = false) (slot_keys file perm) bits →
       Forall (λ key, key ≠ emptyKey → is_Some (storage !! key)) (slot_keys file perm) →
       ReadByte src'.1 = (r', inl EOF) →
       ∃ w',
         WriteChunkData storage file perm cb w = (w', None)
         ∧ t_out (w_user w')
           = t_out (w_user w) ++ data_stream (calls_of storage (slot_keys file perm) bits))
  ∧ (∀ w',
       WriteChunkData storage file perm cb w = (w', None) →
       ∃ bits src',
         read_bits (length perm) (w_reader w, newBitReader) = (src', inr bits)
         ∧ t_out (w_user w')
           = t_out (w_user w) ++ data_stream (calls_of storage (slot_keys file perm) bits)
         ∧ Z.of_nat (length (data_stream (calls_of storage (slot_keys file perm) bits)))
           = requested_length (calls_of storage (slot_keys file perm) bits)).
Proof.
  intros Hperm Hlen Hhonest.
  assert (∀ w',
       WriteChunkData storage file perm cb w = (w', None) →
       ∃ bits src',
         read_bits (length perm) (w_reader w, newBitReader) = (src', inr bits)
         ∧ t_out (w_user w')
           = t_out (w_user w) ++ data_stream (calls_of storage (slot_keys file perm) bits)
         ∧ Z.of_nat (length (data_stream (calls_of storage (slot_keys file perm) bits)))
           = requested_length (calls_of storage (slot_keys file perm) bits)) as Hnil.
  { intros w' Hrun. unfold WriteChunkData in Hrun.
    destruct (forEachChunk_ok_user storage file perm (WriteChunkData_each cb) Hperm Hlen
                _ _ Hrun) as (bits & src' & Hbits & Hcalls & _).
    exists bits, src'. split; [done|]. cbn [w_user] in Hcalls.
    apply run_calls_buffer in Hcalls. rewrite Hcalls, notify_one. split; [done|].
    apply data_stream_length.
    eapply Forall_impl; [apply calls_of_stored|].
    intros [[key c] b] Hc. cbn [fst snd] in *. by apply (Hhonest key c). }
  split; [|split; [|split; [|done]]].
  - intros c t. unfold WriteChunkData_each, writeVarint, io_Copy, Write, buffer_Writer.
    by rewrite <- app_assoc.
  - done.
  - intros bits src' r' Hbits Hf2 Hst Hend.
    destruct (run_calls_buffer_total cb (calls_of storage (slot_keys file perm) bits)
                (notify cb (mkTransfer (t_out (w_user w)) (file_size file) 0%Z
                              (t_observer (w_user w))))) as [u' Hcalls].
    eexists. split.
    + unfold WriteChunkData.
      apply (forEachChunk_succeeds storage file perm (WriteChunkData_each cb) Hperm Hlen
               _ bits src' r' u'); done.
    + cbn [w_user]. apply run_calls_buffer in Hcalls. by rewrite Hcalls, notify_one.
Qed.

Section progress.
Context {W : Type} `{Writer W}.
Variable F : Z.

Lemma WriteChunkData_each_progress (key : list Z) c b
    (t : Transfer W (list (Z * Z))) s :
  progress_ok F t s →
  (0 ≤ chunk_size c)%Z → chunk_size c = Z.of_nat (length (chunk_data c)) →
  (s + chunk_size c ≤ F)%Z →
  progress_ok F (WriteChunkData_each (Some record_status) c b t).1 (s + chunk_size c).
Proof.
  intros (HT & HtoT & Hsum & HsF & HF & Hmono & Hlast & Hhead & Hall) Hc0 Hclen HsF'.
  pose proof (WriteChunkData_each_status (Some record_status) key c b t) as Hst.
  destruct (WriteChunkData_each (Some record_status) c b t) as [t1 [e|]];
    cbn [fst snd] in *.
  { destruct Hst as (HtoT1 & HT1 & Hobs1). unfold progress_ok.
    rewrite HtoT1, HT1, Hobs1. split_and!; try done; lia. }
  destruct Hst as [Hcnt Hobs1]. unfold notify_all, record_status in Hobs1.
  cbn [foldl fst snd] in Hobs1.
  assert (status_after (bytesToTransfer t, bytesTransferred t) (key, c, b)
          = if b then (bytesToTransfer t, (bytesTransferred t + chunk_size c)%Z)
            else ((bytesToTransfer t - chunk_size c)%Z, bytesTransferred t)) as Hsa.
  { unfold status_after. cbn [fst snd]. destruct b.
    - rewrite <- Hclen, wrap64_small; [done|lia].
    - rewrite wrap64_small; [done|lia]. }
  rewrite Hsa in Hcnt, Hobs1.
  assert (bytesToTransfer t1 ≤ bytesToTransfer t
          ∧ bytesTransferred t ≤ bytesTransferred t1
          ∧ bytesTransferred t1 + (F - bytesToTransfer t1)
            = bytesTransferred t + (F - bytesToTransfer t) + chunk_size c)%Z
    as (Hle1 & Hle2 & Heq).
  { destruct b; injection Hcnt as -> ->; lia. }
  unfold progress_ok. rewrite Hobs1. split_and!; try lia.
  - eapply monotone_snoc; [done|done| |]; destruct b; cbn [fst snd]; lia.
  - rewrite last_snoc. by destruct b; injection Hcnt as -> ->.
  - rewrite lookup_app_l; [done|]. by eapply lookup_lt_Some.
  - apply Forall_app. split.
    + eapply Forall_impl; [done|]. intros a [Ha1 Ha2]. cbn beta in *. lia.
    + apply Forall_singleton. destruct b; injection Hcnt as -> ->; cbn [fst snd]; lia.
Qed.

Lemma after_calls_progress calls : ∀ (t : Transfer W (list (Z * Z))) s,
  progress_ok F t s →
  Forall (λ call : list Z * Chunk * bool,
            (0 ≤ chunk_size call.1.2)%Z
            ∧ chunk_size call.1.2 = Z.of_nat (length (chunk_data call.1.2))) calls →
  (s + foldr Z.add 0 ((λ call : list Z * Chunk * bool, chunk_size call.1.2) <$> calls)
   ≤ F)%Z →
  ∃ s', progress_ok F (after_calls (WriteChunkData_each (Some record_status)) calls t) s'.
Proof.
  induction calls as [|[[key c] b] calls IH]; intros t s Hok Hcalls Hsum.
  - by exists s.
  - apply Forall_cons in Hcalls as [[Hc0 Hclen] Hcalls]. cbn [fst snd] in *.
    cbn [fmap list_fmap foldr fst snd] in Hsum.
    pose proof (sum_nonneg ((λ call : list Z * Chunk * bool, chunk_size call.1.2) <$> calls))
      as Hnn.
    unfold after_calls. cbn [foldl fst snd].
    apply (IH _ (s + chunk_size c)%Z).
    + apply (WriteChunkData_each_progress key); try done.
      assert (0 ≤ foldr Z.add 0
                ((λ call : list Z * Chunk * bool, chunk_size call.1.2) <$> calls))%Z.
      { apply Hnn. apply Forall_fmap. eapply Forall_impl; [done|]. by intros ? [? _]. }
      lia.
    + done.
    + lia.
Qed.
End progress.

Section sizes.
Variable storage : gmap (list Z) Chunk.
Variable file : File.
Variable perm : list nat.
Hypothesis perm_ok : is_permutation perm.
Hypothesis chunks_fit : length (file_chunks file) ≤ length perm.
Hypothesis agree : consistent storage file.

Lemma stored_size_nonneg key :
  key ∈ (file_chunks file).*1 → (0 ≤ stored_size storage key)%Z.
Proof.
  intros Hin. apply list_elem_of_fmap in Hin as ([k sz] & -> & Hin).
  destruct agree as (_ & _ & Hall). rewrite Forall_forall in Hall.
  destruct (Hall _ Hin) as [Hsz Hst]. cbn [fst snd] in *.
  unfold stored_size. destruct (storage !! k) as [c|]; lia.
Qed.

Lemma real_sizes_le (chunks : list (list Z * Z)) :
  Forall (λ ks : list Z * Z,
            (0 ≤ ks.2)%Z
            ∧ match storage !! ks.1 with
              | Some c => chunk_size c = ks.2
              | None => True
              end) chunks →
  (foldr Z.add 0 (stored_size storage <$> filter (λ k, k ≠ emptyKey) chunks.*1)
   ≤ foldr Z.add 0 chunks.*2)%Z.
Proof.
  induction 1 as [|[k sz] chunks [Hsz Hst] _ IH]; [done|].
  cbn [fmap list_fmap fst snd foldr] in *.
  destruct (decide (k = emptyKey)) as [->|Hk].
  - rewrite filter_cons_False by (intros ?; done). fold (fmap (M:=list) (@fst (list Z) Z) chunks).
    lia.
  - rewrite filter_cons_True by done. cbn [fmap list_fmap foldr].
    fold (fmap (M:=list) (@fst (list Z) Z) chunks).
    assert (stored_size storage k ≤ sz)%Z.
    { unfold stored_size. destruct (storage !! k); lia. }
    fold (fmap (M:=list) (stored_size storage)
            (filter (λ k, k ≠ emptyKey) chunks.*1)). lia.
Qed.

(** The chunks that [f] is called for have no more bytes in all than
    the file. *)
Lemma calls_size_bound (calls : list (list Z * Chunk * bool)) :
  calls.*1.*1 `prefix_of` filter (λ k, k ≠ emptyKey) (slot_keys file perm) →
  Forall (λ call : list Z * Chunk * bool, storage !! call.1.1 = Some call.1.2) calls →
  Forall (λ call : list Z * Chunk * bool, (0 ≤ chunk_size call.1.2)%Z) calls
  ∧ (foldr Z.add 0 ((λ call : list Z * Chunk * bool, chunk_size call.1.2) <$> calls)
     ≤ file_size file)%Z.
Proof.
  intros [rest Hrest] Hstored.
  pose proof (real_slot_keys file perm perm_ok chunks_fit) as Hperm.
  assert (∀ k, k ∈ filter (λ k, k ≠ emptyKey) (slot_keys file perm) →
               (0 ≤ stored_size storage k)%Z) as Hnn.
  { intros k Hk. rewrite Hperm in Hk. apply list_elem_of_filter in Hk as [_ Hk].
    by apply stored_size_nonneg. }
  assert ((λ call : list Z * Chunk * bool, chunk_size call.1.2) <$> calls
          = stored_size storage <$> calls.*1.*1) as Hsizes.
  { rewrite <- !list_fmap_compose. apply Forall_fmap_ext.
    eapply Forall_impl; [done|]. intros [[k c] b] Hc. cbn [fst snd compose] in *.
    unfold stored_size. by rewrite Hc. }
  split.
  - rewrite Forall_forall. intros [[k c] b] Hin. cbn [fst snd].
    rewrite Forall_forall in Hstored. specialize (Hstored _ Hin). cbn [fst snd] in Hstored.
    assert (k ∈ calls.*1.*1) as Hk.
    { apply list_elem_of_fmap. exists (k, c). split; [done|].
      apply list_elem_of_fmap. by exists (k, c, b). }
    specialize (Hnn k). rewrite Hrest in Hnn.
    unfold stored_size in Hnn. rewrite Hstored in Hnn. apply Hnn.
    apply elem_of_app. by left.
  - rewrite Hsizes.
    destruct agree as (HF & _ & Hall). rewrite HF.
    etrans; [|by apply real_sizes_le].
    rewrite <- (sum_Permutation _ _ (fmap_Permutation (stored_size storage) _ _ Hperm)).
    rewrite Hrest, fmap_app, sum_app.
    assert (0 ≤ foldr Z.add 0 (stored_size storage <$> rest))%Z; [|lia].
    apply sum_nonneg, Forall_fmap, Forall_forall. intros k Hk.
    apply Hnn. rewrite Hrest. apply elem_of_app. by right.
Qed.

Lemma file_size_nonneg : (0 ≤ file_size file)%Z.
Proof.
  destruct agree as (-> & _ & Hall). apply sum_nonneg, Forall_fmap.
  eapply Forall_impl; [done|]. by intros ? [? _].
Qed.
End sizes.

(** C8. When the file and the store agree on the sizes, the snapshots that
    the callback of [WriteChunkData] is given, in any run, start with the
    file's size and 0; from each to the next [bytesToTransfer] does not grow
    and [bytesTransferred] does not shrink; and every [bytesTransferred] is
    at most the value [bytesToTransfer] has in the end. *)
Theorem transfer_status_monotone {W : Type} `{Writer W}
    (storage : gmap (list Z) Chunk) (file : File) (perm : list nat)
    (w : World (Transfer W (list (Z * Z)))) :
  is_permutation perm → length (file_chunks file) ≤ length perm →
  consistent storage file → sizes_honest storage →
  t_observer (w_user w) = [] →
  let w' := (WriteChunkData storage file perm (Some record_status) w).1 in
  let snaps := t_observer (w_user w') in
  snaps !! 0 = Some (file_size file, 0%Z)
  ∧ monotone snaps
  ∧ Forall (λ a : Z * Z, (a.2 ≤ bytesToTransfer (w_user w'))%Z) snaps
  ∧ last snaps = Some (bytesToTransfer (w_user w'), bytesTransferred (w_user w')).
Proof.
  intros Hperm Hlen Hagree Hhonest Hobs w' snaps. subst snaps w'.
  unfold WriteChunkData.
  destruct (forEachChunk_user storage file perm
              (WriteChunkData_each (Some record_status)) Hperm Hlen
              (mkWorld (w_reader w) (w_bits w) (w_handles w) (w_log w)
                 (notify (Some record_status)
                    (mkTransfer (t_out (w_user w)) (file_size file) 0%Z
                       (t_observer (w_user w))))))
    as (calls & Hpre & Hstored & ->).
  cbn [w_user]. rewrite Hobs.
  destruct (calls_size_bound storage file perm Hperm Hlen Hagree calls Hpre Hstored)
    as [Hnn Hsum].
  pose proof (file_size_nonneg storage file Hagree) as HF0.
  destruct (after_calls_progress (file_size file) calls
              (notify (Some record_status)
                 (mkTransfer (t_out (w_user w)) (file_size file) 0%Z []))
              0%Z) as (s' & HT & HtoT & Hs & HsF & HF & Hmono & Hlast & Hhead & Hall).
  - destruct Hagree as (_ & HF & _). unfold progress_ok. cbn.
    split_and!; try done; try lia; [by intros [|i] a b Ha Hb..|].
    apply Forall_singleton. cbn. lia.
  - rewrite Forall_forall in Hnn, Hstored. apply Forall_forall. intros [[k c] b] Hin.
    split; [by apply (Hnn _ Hin)|]. cbn [fst snd].
    apply (Hhonest k c). apply (Hstored _ Hin).
  - lia.
  - split_and!; try done.
    eapply Forall_impl; [done|]. intros a [Ha _]. cbn beta in *. lia.
Qed.

(** C7. [WriteChunkData] first calls the callback, when there is one, with
    the file's size and 0.  The function literal calls it after every chunk it
    has dealt with, requested or not, with the counters as they are then: a
    chunk that is not requested always ends in such a call, a requested one
    whenever the writer takes its varint and its bytes.  So in every run the
    observer has seen the first snapshot and then one snapshot for each chunk
    [f] was called on, in slot order, except for a last requested chunk that
    the writer refused, whose error is the result.  A run that returns nil has
    made one call for every chunk of the file with a key other than the empty
    key, and the run returns nil when the wishlist holds a bit for every slot,
    none set for a placeholder, the store holds the chunks and the writer
    refuses nothing.  Without a callback the observer is left alone. *)
Theorem status_callback_invocations {W Obs : Type} `{Writer W}
    (storage : gmap (list Z) Chunk) (file : File) (perm : list nat)
    (w : World (Transfer W Obs)) :
  is_permutation perm → length (file_chunks file) ≤ length perm →
  (∀ cb c (t : Transfer W Obs),
     WriteChunkData_each cb c false t
     = (notify cb (mkTransfer (t_out t) (wrap64 (bytesToTransfer t - chunk_size c))
                     (bytesTransferred t) (t_observer t)), None))
  ∧ (∀ cb c (t : Transfer W Obs) o1 o2,
       writeVarint (chunk_size c) (t_out t) = (o1, None) →
       Write (chunk_data c) o1 = (o2, None) →
       WriteChunkData_each cb c true t
       = (notify cb (mkTransfer o2 (bytesToTransfer t)
                       (wrap64 (bytesTransferred t + Z.of_nat (length (chunk_data c))))
                       (t_observer t)), None))
  ∧ (∀ cb, ∃ calls finished,
       w_log (WriteChunkData storage file perm cb w).1
       = w_log w ++ call_events (w_handles w) calls
       ∧ (calls = finished
          ∨ ∃ last e, calls = finished ++ [last] ∧ last.2 = true
                      ∧ (WriteChunkData storage file perm cb w).2 = Some e)
       ∧ t_observer (w_user (WriteChunkData storage file perm cb w).1)
         = notify_all cb
             ((file_size file, 0%Z) :: statuses (file_size file, 0%Z) finished)
             (t_observer (w_user w)))
  ∧ (∀ cb w',
       WriteChunkData storage file perm cb w = (w', None) →
       ∃ bits src',
         read_bits (length perm) (w_reader w, newBitReader) = (src', inr bits)
         ∧ t_observer (w_user w')
           = notify_all cb
               ((file_size file, 0%Z)
                :: statuses (file_size file, 0%Z)
                     (calls_of storage (slot_keys file perm) bits))
               (t_observer (w_user w))
         ∧ length (calls_of storage (slot_keys file perm) bits)
           = length (filter (λ k, k ≠ emptyKey) (file_chunks file).*1))
  ∧ (∀ cb bits src' r' u',
       read_bits (length perm) (w_reader w, newBitReader) = (src', inr bits) →
       Forall2 (λ key b, key = emptyKey → b = false) (slot_keys file perm) bits →
       Forall (λ key, key ≠ emptyKey → is_Some (storage !! key)) (slot_keys file perm) →
       ReadByte src'.1 = (r', inl EOF) →
       run_calls (WriteChunkData_each cb) (calls_of storage (slot_keys file perm) bits)
         (w_user (transfer_start file cb w)) = (u', None) →
       ∃ w',
         WriteChunkData storage file perm cb w = (w', None)
         ∧ t_observer (w_user w')
           = notify_all cb
               ((file_size file, 0%Z)
                :: statuses (file_size file, 0%Z)
                     (calls_of storage (slot_keys file perm) bits))
               (t_observer (w_user w)))
  ∧ t_observer (w_user (WriteChunkData storage file perm None w).1)
    = t_observer (w_user w).
Proof.
  intros Hperm Hlen.
  assert (∀ cb, ∃ calls finished,
       w_log (WriteChunkData storage file perm cb w).1
       = w_log w ++ call_events (w_handles w) calls
       ∧ (calls = finished
          ∨ ∃ last e, calls = finished ++ [last] ∧ last.2 = true
                      ∧ (WriteChunkData storage file perm cb w).2 = Some e)
       ∧ t_observer (w_user (WriteChunkData storage file perm cb w).1)
         = notify_all cb
             ((file_size file, 0%Z) :: statuses (file_size file, 0%Z) finished)
             (t_observer (w_user w))) as Hany.
  { intros cb. unfold WriteChunkData.
    destruct (forEachChunk_run_calls storage file perm (WriteChunkData_each cb) Hperm Hlen
                (mkWorld (w_reader w) (w_bits w) (w_handles w) (w_log w)
                   (notify cb (mkTransfer (t_out (w_user w)) (file_size file) 0%Z
                                 (t_observer (w_user w))))))
      as (calls & Hlog & Hcalls).
    cbn [w_log w_handles w_user] in Hlog, Hcalls.
    destruct Hcalls as [Hall|(finished & [[key c] b] & u1 & e & -> & Hfin & Hlast & Hres)].
    - exists calls, calls. split; [done|]. split; [by left|].
      apply run_calls_status in Hall as [_ ->].
      rewrite notify_one. cbn [t_observer bytesToTransfer bytesTransferred].
      by rewrite <- notify_all_app.
    - exists (finished ++ [(key, c, b)]), finished. split; [done|].
      cbn [fst snd] in Hlast.
      pose proof (WriteChunkData_each_status cb key c b u1) as Hst.
      rewrite Hlast in Hst. cbn [fst snd] in Hst. destruct Hst as (_ & _ & ->).
      split.
      + right. exists (key, c, b), e. split; [done|]. split; [|done].
        destruct b; [done|]. by unfold WriteChunkData_each in Hlast.
      + apply run_calls_status in Hfin as [_ ->].
        rewrite notify_one. cbn [t_observer bytesToTransfer bytesTransferred].
        by rewrite <- notify_all_app. }
  split; [done|]. split; [|split; [done|split; [|split]]].
  - intros cb c t o1 o2 Hv Hd. unfold WriteChunkData_each, io_Copy. by rewrite Hv, Hd.
  - intros cb w' Hrun. unfold WriteChunkData in Hrun.
    destruct (forEachChunk_ok_user storage file perm (WriteChunkData_each cb) Hperm Hlen
                _ _ Hrun) as (bits & src' & Hbits & Hcalls & Hkeys).
    exists bits, src'. split; [done|].
    cbn [w_user] in Hcalls. apply run_calls_status in Hcalls as [_ ->].
    rewrite notify_one. cbn [t_observer bytesToTransfer bytesTransferred]. split.
    + by rewrite <- notify_all_app.
    + rewrite <- (length_fmap fst), <- (length_fmap fst), Hkeys.
      apply Permutation_length. by apply real_slot_keys.
  - intros cb bits src' r' u' Hbits Hf2 Hst Hend Hcalls.
    eexists. split.
    + unfold WriteChunkData.
      apply (forEachChunk_succeeds storage file perm (WriteChunkData_each cb) Hperm Hlen
               _ bits src' r' u'); done.
    + cbn [w_user]. unfold transfer_start in Hcalls. cbn [w_user] in Hcalls.
      apply run_calls_status in Hcalls as [_ ->].
      rewrite notify_one. cbn [t_observer bytesToTransfer bytesTransferred].
      by rewrite <- notify_all_app.
  - destruct (Hany None) as (calls & finished & _ & _ & ->). done.
Qed.

Lemma example_sizes_honest : sizes_honest example_storage.
Proof.
  unfold sizes_honest, example_storage.
  apply map_Forall_insert_2; [done|]. apply map_Forall_insert_2; [done|].
  apply map_Forall_empty.
Qed.

Lemma example_consistent : consistent example_storage example_file.
Proof.
  unfold consistent. split; [done|]. split; [done|].
  repeat constructor; vm_compute; congruence.
Qed.

Lemma WriteChunkData_stream_witness :
  let w := start_with [inr 160%Z] (mkTransfer ([] : list Z) 0%Z 0%Z ([] : list (Z * Z))) in
  let cb := Some record_status in
  is_permutation example_perm
  ∧ length (file_chunks example_file) ≤ length example_perm
  ∧ sizes_honest example_storage
  ∧ ∃ w',
      WriteChunkData example_storage example_file example_perm cb w = (w', None)
      ∧ t_out (w_user w') = [3; 20; 21; 22; 2; 10; 11]%Z
      ∧ Z.of_nat (length (t_out (w_user w'))) = (1 + 3 + (1 + 2))%Z.
Proof.
  intros w cb.
  split; [compute_done|]. split; [simpl; lia|]. split; [apply example_sizes_honest|].
  destruct (WriteChunkData_stream example_storage example_file example_perm cb w
              ltac:(compute_done) ltac:(simpl; lia) example_sizes_honest)
    as (_ & _ & Hgood & _).
  destruct (Hgood [true; false; true] ([], mkBitReader 160 5) [])
    as (w' & Hrun & Hout).
  - vm_compute. reflexivity.
  - repeat constructor; compute_done.
  - repeat constructor; intros Hne;
      first [by vm_compute; eauto | by exfalso; apply Hne; vm_compute].
  - reflexivity.
  - exists w'. split; [exact Hrun|]. rewrite Hout. split; vm_compute; reflexivity.
Defined.

Lemma status_callback_invocations_witness :
  let w := start_with [inr 160%Z] (mkTransfer ([] : list Z) 0%Z 0%Z ([] : list (Z * Z))) in
  is_permutation example_perm
  ∧ length (file_chunks example_file) ≤ length example_perm
  ∧ (∃ w',
       WriteChunkData example_storage example_file example_perm (Some record_status) w
       = (w', None)
       ∧ t_observer (w_user w') = [(5, 0); (5, 3); (5, 5)]%Z)
  ∧ t_observer (w_user (WriteChunkData example_storage example_file example_perm None w).1)
    = [].
Proof.
  intros w.
  split; [compute_done|]. split; [simpl; lia|].
  destruct (status_callback_invocations example_storage example_file example_perm w
              ltac:(compute_done) ltac:(simpl; lia))
    as (_ & _ & _ & _ & Hgood & Hnil).
  split; [|exact Hnil].
  destruct (Hgood (Some record_status) [true; false; true] ([], mkBitReader 160 5) []
              (mkTransfer [3; 20; 21; 22; 2; 10; 11]%Z 5%Z 5%Z
                 [(5, 0); (5, 3); (5, 5)]%Z))
    as (w' & Hrun & Hobs).
  - vm_compute. reflexivity.
  - repeat constructor; compute_done.
  - repeat constructor; intros Hne;
      first [by vm_compute; eauto | by exfalso; apply Hne; vm_compute].
  - reflexivity.
  - vm_compute. reflexivity.
  - exists w'. split; [exact Hrun|]. rewrite Hobs. vm_compute. reflexivity.
Defined.

Lemma transfer_status_monotone_witness :
  let w := start_with [inr 160%Z] (mkTransfer ([] : list Z) 0%Z 0%Z ([] : list (Z * Z))) in
  let w' := (WriteChunkData example_storage example_file example_perm
               (Some record_status) w).1 in
  let snaps := t_observer (w_user w') in
  is_permutation example_perm
  ∧ length (file_chunks example_file) ≤ length example_perm
  ∧ consistent example_storage example_file
  ∧ sizes_honest example_storage
  ∧ t_observer (w_user w) = []
  ∧ snaps !! 0 = Some (file_size example_file, 0%Z)
  ∧ monotone snaps
  ∧ Forall (λ a : Z * Z, (a.2 ≤ bytesToTransfer (w_user w'))%Z) snaps
  ∧ last snaps = Some (bytesToTransfer (w_user w'), bytesTransferred (w_user w')).
Proof.
  intros w w' snaps.
  split; [compute_done|]. split; [simpl; lia|]. split; [apply example_consistent|].
  split; [apply example_sizes_honest|]. split; [reflexivity|].
  apply (transfer_status_monotone example_storage example_file example_perm w).
  - compute_done.
  - simpl. lia.
  - apply example_consistent.
  - apply example_sizes_honest.
  - reflexivity.
Defined.

Lemma placeholder_slot_policy_witness :
  let w := start_with [inr 192%Z] tt in
  let wj := (consume_all (forEachChunk_consume example_storage idle)
               (take 1 (slot_keys example_file example_perm))
               (with_src (w_reader w, newBitReader) w)).1 in
  let src' := (ReadBit (w_src wj)).1 in
  is_permutation example_perm
  ∧ length (file_chunks example_file) ≤ length example_perm
  ∧ slot_keys example_file example_perm !! 1 = Some emptyKey
  ∧ ReadBit (w_src wj) = (src', inr true)
  ∧ forEachChunk example_storage example_file example_perm idle w
    = (with_src src' wj, Some ErrSpuriousRequest).
Proof.
  intros w wj src'.
  split; [compute_done|]. split; [simpl; lia|].
  split; [vm_compute; reflexivity|]. split; [vm_compute; reflexivity|].
  apply (placeholder_slot_policy example_storage example_file example_perm
           idle ltac:(compute_done) ltac:(simpl; lia) w 1 wj src' true);
    vm_compute; reflexivity.
Defined.

Lemma wishlist_length_checks_witness :
  let run := consume_all (forEachChunk_consume example_storage idle) in
  let good := start_with [inr 160%Z] tt in
  let short := start_with [inr 0%Z] tt in
  let long := start_with [inr 160%Z; inr 0%Z] tt in
  let w8 := (run (take 8 (slot_keys example_file example_long_perm))
               (with_src (w_reader short, newBitReader) short)).1 in
  let w3 := (run (slot_keys example_file example_perm)
               (with_src (w_reader long, newBitReader) long)).1 in
  is_permutation example_perm
  ∧ length (file_chunks example_file) ≤ length example_perm
  ∧ is_permutation example_long_perm
  ∧ length (file_chunks example_file) ≤ length example_long_perm
  ∧ (∃ bits, read_bits 3 ([inr 160%Z], newBitReader)
             = (w_src (run (slot_keys example_file example_perm)
                         (with_src (w_reader good, newBitReader) good)).1, inr bits)
             ∧ length bits = 3)
  ∧ forEachChunk example_storage example_file example_long_perm idle short
    = (with_src ([], w_bits w8) w8, Some (ErrWishlistTooShort EOF))
  ∧ forEachChunk example_storage example_file example_perm idle long
    = (with_src ([], w_bits w3) w3, Some ErrWishlistTooLong).
Proof.
  intros run good short long w8 w3.
  split; [compute_done|]. split; [simpl; lia|].
  split; [compute_done|]. split; [simpl; lia|].
  split; [|split].
  - destruct (wishlist_length_checks example_storage example_file example_perm idle
                ltac:(compute_done) ltac:(simpl; lia) good) as (_ & Hbits & _).
    apply (Hbits (run (slot_keys example_file example_perm)
                    (with_src (w_reader good, newBitReader) good)).1).
    vm_compute. reflexivity.
  - destruct (wishlist_length_checks example_storage example_file example_long_perm idle
                ltac:(compute_done) ltac:(simpl; lia) short) as (_ & _ & Hshort & _).
    apply (Hshort 8 w8 ([], w_bits w8) EOF).
    + simpl. lia.
    + vm_compute. reflexivity.
    + vm_compute. reflexivity.
  - destruct (wishlist_length_checks example_storage example_file example_perm idle
                ltac:(compute_done) ltac:(simpl; lia) long) as (_ & _ & _ & Hlong).
    apply (Hlong w3 [] (inr 0%Z)).
    + vm_compute. reflexivity.
    + vm_compute. reflexivity.
    + discriminate.
Defined.

Lemma final_read_error_is_too_long_witness :
  let w := start_with [inr 160%Z; inl (ErrIO 7)] tt in
  let w' := (consume_all (forEachChunk_consume example_storage idle)
               (slot_keys example_file example_perm)
               (with_src (w_reader w, newBitReader) w)).1 in
  is_permutation example_perm
  ∧ length (file_chunks example_file) ≤ length example_perm
  ∧ ReadByte (w_reader w') = ([], inl (ErrIO 7))
  ∧ forEachChunk example_storage example_file example_perm idle w
    = (with_src ([], w_bits w') w', Some ErrWishlistTooLong).
Proof.
  intros w w'.
  split; [compute_done|]. split; [simpl; lia|]. split; [vm_compute; reflexivity|].
  apply (final_read_error_is_too_long example_storage example_file example_perm idle
           ltac:(compute_done) ltac:(simpl; lia) w w' [] (inl (ErrIO 7)));
    vm_compute; reflexivity.
Defined.

(** *** More on forEachChunk *)

Section forEachChunk_runs.
Context {U : Type}.
Variable storage : gmap (list Z) Chunk.
Variable file : File.
Variable perm : list nat.
Variable f : Chunk → bool → U → U * option error.
Hypothesis perm_ok : is_permutation perm.
Hypothesis chunks_fit : length (file_chunks file) ≤ length perm.

Lemma expect_end_log (w : World U) : w_log (expect_end w).1 = w_log w.
Proof.
  unfold expect_end. destruct (ReadByte (w_reader w)) as [r' res].
  by destruct (decide (res = inl EOF)).
Qed.

(** X1. A successful [forEachChunk] has called [f] once for every chunk of
    the file whose key is not the empty key, "requested or not", each time
    with the chunk that the store holds under the key, and every call
    returned nil. *)
Theorem forEachChunk_calls_every_chunk w w' :
  forEachChunk storage file perm f w = (w', None) →
  ∃ calls,
    w_log w' = w_log w ++ call_events (w_handles w) calls
    ∧ calls.*1.*1 ≡ₚ filter (λ k, k ≠ emptyKey) (file_chunks file).*1
    ∧ Forall (λ call : list Z * Chunk * bool, storage !! call.1.1 = Some call.1.2) calls
    ∧ run_calls f calls (w_user w) = (w_user w', None).
Proof.
  rewrite forEachChunk_slots by done. unfold and_then.
  destruct (consume_all _ _ _) as [w1 [e|]] eqn:Hrun; [done|].
  intros Hend.
  destruct (consume_all_ok_calls storage f _ _ _ Hrun)
    as (bits & _ & _ & Hcalls & Hlog & Hkeys).
  exists (calls_of storage (slot_keys file perm) bits).
  pose proof (expect_end_user w1) as Hu. pose proof (expect_end_log w1) as Hl.
  rewrite Hend in Hu, Hl. cbn [fst] in Hu, Hl. rewrite Hu, Hl. split; [done|].
  split; [|split; [apply calls_of_stored|done]].
  rewrite Hkeys. by apply real_slot_keys.
Qed.

(** X2. Whatever [forEachChunk] returns, the chunks it has taken from the
    store are chunks of the file, none more often than the file lists it, and
    the empty key is never looked up. *)
Theorem forEachChunk_fetches_only_file_chunks w :
  ∃ calls,
    w_log (forEachChunk storage file perm f w).1
    = w_log w ++ call_events (w_handles w) calls
    ∧ calls.*1.*1 ⊆+ (file_chunks file).*1
    ∧ Forall (λ k, k ≠ emptyKey) calls.*1.*1.
Proof.
  rewrite forEachChunk_slots by done. unfold and_then.
  destruct (consume_all_calls storage f (slot_keys file perm)
              (with_src (w_reader w, newBitReader) w))
    as (calls & [rest Hpre] & _ & _ & Hlog & _).
  exists calls.
  assert (calls.*1.*1 ⊆+ filter (λ k, k ≠ emptyKey) (file_chunks file).*1) as Hsub.
  { rewrite <- (real_slot_keys file perm perm_ok chunks_fit), Hpre.
    apply sublist_submseteq, sublist_inserts_r. done. }
  split; [|split].
  - destruct (consume_all _ _ _) as [w1 [e|]]; cbn [fst] in *; [done|].
    by rewrite expect_end_log.
  - etrans; [done|]. apply sublist_submseteq, sublist_filter.
  - apply Forall_forall. intros k Hk.
    eapply elem_of_submseteq in Hk; [|done].
    by apply list_elem_of_filter in Hk as [? _].
Qed.

(** X3. When the run has reached a slot whose key is not in the store,
    [forEachChunk] returns the error of [storage.Get] as it is; [f] is not
    called for the slot and nothing is disposed of. *)
Theorem forEachChunk_missing_chunk w j key wj src' b :
  slot_keys file perm !! j = Some key → key ≠ emptyKey → storage !! key = None →
  consume_all (forEachChunk_consume storage f) (take j (slot_keys file perm))
    (with_src (w_reader w, newBitReader) w) = (wj, None) →
  ReadBit (w_src wj) = (src', inr b) →
  forEachChunk storage file perm f w = (with_src src' wj, Some ErrNotFound).
Proof.
  intros Hj Hk Hget Hreach Hbit.
  rewrite (forEachChunk_at_slot storage file perm f perm_ok chunks_fit w j key wj Hj Hreach).
  unfold and_then at 1. unfold forEachChunk_consume, next_bit.
  rewrite Hbit. cbv beta iota. rewrite decide_False by done.
  unfold Get. cbn [w_src with_src]. by rewrite Hget.
Qed.

(** X4. When [f] returns an error for the chunk of a slot that the run has
    reached, [forEachChunk] returns that very error and stops there: the chunk
    is disposed of, no further bit is read and the end of the wishlist is not
    looked at. *)
Theorem forEachChunk_delegate_error_stops w j key wj src' b c u' e :
  slot_keys file perm !! j = Some key → key ≠ emptyKey → storage !! key = Some c →
  consume_all (forEachChunk_consume storage f) (take j (slot_keys file perm))
    (with_src (w_reader w, newBitReader) w) = (wj, None) →
  ReadBit (w_src wj) = (src', inr b) →
  f c b (w_user wj) = (u', Some e) →
  forEachChunk storage file perm f w
  = (mkWorld src'.1 src'.2 (S (w_handles wj))
       (w_log wj ++ [EvGet (w_handles wj) key; EvCall (w_handles wj) b;
                     EvDispose (w_handles wj)]) u',
     Some e).
Proof.
  intros Hj Hk Hget Hreach Hbit Hf.
  rewrite (forEachChunk_at_slot storage file perm f perm_ok chunks_fit w j key wj Hj Hreach).
  unfold and_then at 1. unfold forEachChunk_consume, next_bit.
  rewrite Hbit. cbv beta iota. rewrite decide_False by done.
  unfold Get. rewrite Hget. unfold call. cbn [w_user with_src]. rewrite Hf.
  unfold Dispose. simpl. by rewrite <- !app_assoc.
Qed.

End forEachChunk_runs.

Lemma forEachChunk_calls_every_chunk_witness :
  let w := start_with [inr 160%Z] tt in
  let w' := (forEachChunk example_storage example_file example_perm idle w).1 in
  is_permutation example_perm
  ∧ length (file_chunks example_file) ≤ length example_perm
  ∧ forEachChunk example_storage example_file example_perm idle w = (w', None)
  ∧ ∃ calls,
      w_log w' = w_log w ++ call_events (w_handles w) calls
      ∧ calls.*1.*1 ≡ₚ filter (λ k, k ≠ emptyKey) (file_chunks example_file).*1
      ∧ Forall (λ call : list Z * Chunk * bool,
                  example_storage !! call.1.1 = Some call.1.2) calls
      ∧ run_calls idle calls (w_user w) = (w_user w', None).
Proof.
  intros w w'. split; [compute_done|]. split; [simpl; lia|].
  split; [vm_compute; reflexivity|].
  apply (forEachChunk_calls_every_chunk example_storage example_file example_perm idle
           ltac:(compute_done) ltac:(simpl; lia) w w').
  vm_compute. reflexivity.
Defined.

Lemma forEachChunk_fetches_only_file_chunks_witness :
  let w := start_with [inr 128%Z] tt in
  is_permutation example_perm
  ∧ length (file_chunks example_file) ≤ length example_perm
  ∧ ∃ calls,
      w_log (forEachChunk example_storage example_file example_perm idle w).1
      = w_log w ++ call_events (w_handles w) calls
      ∧ calls.*1.*1 ⊆+ (file_chunks example_file).*1
      ∧ Forall (λ k, k ≠ emptyKey) calls.*1.*1.
Proof.
  intros w. split; [compute_done|]. split; [simpl; lia|].
  apply (forEachChunk_fetches_only_file_chunks example_storage example_file example_perm
           idle ltac:(compute_done) ltac:(simpl; lia) w).
Defined.

Lemma forEachChunk_missing_chunk_witness :
  let storage : gmap (list Z) Chunk := <[key_b := mkChunk 3 [20; 21; 22]%Z]> ∅ in
  let w := start_with [inr 160%Z] tt in
  let wj := (consume_all (forEachChunk_consume storage idle)
               (take 2 (slot_keys example_file example_perm))
               (with_src (w_reader w, newBitReader) w)).1 in
  let src' := (ReadBit (w_src wj)).1 in
  is_permutation example_perm
  ∧ length (file_chunks example_file) ≤ length example_perm
  ∧ slot_keys example_file example_perm !! 2 = Some key_a
  ∧ key_a ≠ emptyKey
  ∧ storage !! key_a = None
  ∧ ReadBit (w_src wj) = (src', inr true)
  ∧ forEachChunk storage example_file example_perm idle w
    = (with_src src' wj, Some ErrNotFound).
Proof.
  intros storage w wj src'.
  split; [compute_done|]. split; [simpl; lia|]. split; [vm_compute; reflexivity|].
  split; [compute_done|]. split; [vm_compute; reflexivity|].
  split; [vm_compute; reflexivity|].
  apply (forEachChunk_missing_chunk storage example_file example_perm idle
           ltac:(compute_done) ltac:(simpl; lia) w 2 key_a wj src' true);
    try (vm_compute; reflexivity). compute_done.
Defined.

Lemma forEachChunk_delegate_error_stops_witness :
  let failing : Chunk → bool → unit → unit * option error :=
    λ _ _ u, (u, Some (ErrDelegate 1)) in
  let w := start_with [inr 160%Z] tt in
  let wj := with_src (w_reader w, newBitReader) w in
  let src' := (ReadBit (w_src wj)).1 in
  let c := mkChunk 3 [20; 21; 22]%Z in
  is_permutation example_perm
  ∧ length (file_chunks example_file) ≤ length example_perm
  ∧ slot_keys example_file example_perm !! 0 = Some key_b
  ∧ key_b ≠ emptyKey
  ∧ example_storage !! key_b = Some c
  ∧ ReadBit (w_src wj) = (src', inr true)
  ∧ forEachChunk example_storage example_file example_perm failing w
    = (mkWorld src'.1 src'.2 (S (w_handles wj))
         (w_log wj ++ [EvGet (w_handles wj) key_b; EvCall (w_handles wj) true;
                       EvDispose (w_handles wj)]) tt,
       Some (ErrDelegate 1)).
Proof.
  intros failing w wj src' c.
  split; [compute_done|]. split; [simpl; lia|]. split; [vm_compute; reflexivity|].
  split; [compute_done|]. split; [vm_compute; reflexivity|].
  split; [vm_compute; reflexivity|].
  apply (forEachChunk_delegate_error_stops example_storage example_file example_perm
           failing ltac:(compute_done) ltac:(simpl; lia) w 0 key_b wj src' true c tt
           (ErrDelegate 1));
    try (vm_compute; reflexivity). compute_done.
Defined.

(** *** More on WriteChunkData and WriteChunkHashes *)

Lemma filter_all {A} (P : A → Prop) `{∀ x, Decision (P x)} (l : list A) :
  Forall P l → filter P l = l.
Proof.
  induction 1 as [|x l Hx _ IH]; [done|]. by rewrite filter_cons_True, IH.
Qed.

Lemma foldl_status_balance (F : Z) calls : ∀ toT T,
  Forall (λ call : list Z * Chunk * bool,
            (0 ≤ chunk_size call.1.2)%Z
            ∧ chunk_size call.1.2 = Z.of_nat (length (chunk_data call.1.2))) calls →
  (0 ≤ T)%Z → (toT ≤ F)%Z → (F < 2 ^ 63)%Z →
  (T + (F - toT)
   + foldr Z.add 0 ((λ call : list Z * Chunk * bool, chunk_size call.1.2) <$> calls)
   ≤ F)%Z →
  ((foldl status_after (toT, T) calls).2 + (F - (foldl status_after (toT, T) calls).1)
   = T + (F - toT)
     + foldr Z.add 0 ((λ call : list Z * Chunk * bool, chunk_size call.1.2) <$> calls))%Z
  ∧ (0 ≤ (foldl status_after (toT, T) calls).2)%Z
  ∧ ((foldl status_after (toT, T) calls).1 ≤ F)%Z.
Proof.
  induction calls as [|[[key c] b] calls IH]; intros toT T Hcalls HT HtoT HF Hsum.
  - simpl. lia.
  - apply Forall_cons in Hcalls as [[Hc0 Hclen] Hcalls]. cbn [fst snd] in *.
    cbn [fmap list_fmap foldr fst snd] in *.
    pose proof (sum_nonneg ((λ call : list Z * Chunk * bool, chunk_size call.1.2) <$> calls))
      as Hnn.
    assert (0 ≤ foldr Z.add 0
              ((λ call : list Z * Chunk * bool, chunk_size call.1.2) <$> calls))%Z as Hrest.
    { apply Hnn. apply Forall_fmap. eapply Forall_impl; [done|]. by intros ? [? _]. }
    cbn [foldl].
    assert (status_after (toT, T) (key, c, b)
            = if b then (toT, (T + chunk_size c)%Z) else ((toT - chunk_size c)%Z, T)) as ->.
    { unfold status_after. cbn [fst snd]. destruct b.
      - by rewrite <- Hclen, wrap64_small by lia.
      - by rewrite wrap64_small by lia. }
    destruct b.
    + destruct (IH toT (T + chunk_size c)%Z) as (Heq & H0 & HFle); try done; try lia.
    + destruct (IH (toT - chunk_size c)%Z T) as (Heq & H0 & HFle); try done; try lia.
Qed.

Section all_stored.
Variable storage : gmap (list Z) Chunk.

Lemma listed_sizes_sum (chunks : list (list Z * Z)) :
  Forall (λ ks : list Z * Z,
            (0 ≤ ks.2)%Z
            ∧ match storage !! ks.1 with
              | Some c => chunk_size c = ks.2
              | None => True
              end) chunks →
  Forall (λ k, is_Some (storage !! k)) chunks.*1 →
  foldr Z.add 0%Z (stored_size storage <$> chunks.*1) = foldr Z.add 0%Z chunks.*2.
Proof.
  induction 1 as [|[k sz] chunks [Hsz Hst] _ IH]; [done|].
  cbn [fmap list_fmap fst snd foldr] in *. intros Hall.
  apply Forall_cons in Hall as [[c Hc] Hall].
  unfold stored_size at 1. rewrite Hc in Hst |- *. rewrite Hst. f_equal. by apply IH.
Qed.
End all_stored.

(** X5. When the file and the store agree on the sizes and no chunk of the
    file has the empty key, a successful [WriteChunkData] ends with
    [bytesToTransfer] equal to [bytesTransferred]: what was announced as still
    to come has been sent. *)
Theorem WriteChunkData_completes_progress {W Obs : Type} `{Writer W}
    (storage : gmap (list Z) Chunk) (file : File) (perm : list nat)
    (cb : option (Z → Z → Obs → Obs)) (w w' : World (Transfer W Obs)) :
  is_permutation perm → length (file_chunks file) ≤ length perm →
  consistent storage file → sizes_honest storage →
  Forall (λ k, k ≠ emptyKey) (file_chunks file).*1 →
  WriteChunkData storage file perm cb w = (w', None) →
  bytesToTransfer (w_user w') = bytesTransferred (w_user w')
  ∧ (0 ≤ bytesTransferred (w_user w') ≤ file_size file)%Z.
Proof.
  intros Hperm Hlen Hagree Hhonest Hreal Hrun. unfold WriteChunkData in Hrun.
  destruct (forEachChunk_ok_user storage file perm (WriteChunkData_each cb) Hperm Hlen
              _ _ Hrun) as (bits & src' & _ & Hcalls & Hkeys).
  cbn [w_user] in Hcalls. apply run_calls_status in Hcalls as [Hcnt _].
  rewrite notify_one in Hcnt. cbn [bytesToTransfer bytesTransferred] in Hcnt.
  set (calls := calls_of storage (slot_keys file perm) bits) in *.
  pose proof (calls_of_stored storage (slot_keys file perm) bits) as Hstored.
  fold calls in Hstored.
  assert (calls.*1.*1 ≡ₚ (file_chunks file).*1) as Hall.
  { rewrite Hkeys, (real_slot_keys file perm Hperm Hlen).
    by rewrite (filter_all _ _ Hreal). }
  destruct (calls_size_bound storage file perm Hperm Hlen Hagree calls) as [Hnn Hsum];
    [by rewrite Hkeys|done|].
  assert (foldr Z.add 0%Z ((λ call : list Z * Chunk * bool, chunk_size call.1.2) <$> calls)
          = file_size file) as Htotal.
  { assert ((λ call : list Z * Chunk * bool, chunk_size call.1.2) <$> calls
            = stored_size storage <$> calls.*1.*1) as ->.
    { rewrite <- !list_fmap_compose. apply Forall_fmap_ext.
      eapply Forall_impl; [exact Hstored|]. intros [[k c] b] Hc.
      cbn [fst snd compose] in *. unfold stored_size. by rewrite Hc. }
    rewrite (sum_Permutation _ _ (fmap_Permutation (stored_size storage) _ _ Hall)).
    destruct Hagree as (-> & _ & Hlisted). apply listed_sizes_sum; [done|].
    apply Forall_forall. intros k Hk. rewrite <- Hall in Hk.
    apply list_elem_of_fmap in Hk as ([k' c] & -> & Hk).
    apply list_elem_of_fmap in Hk as ([[k'' c'] b] & [= <- <-] & Hk).
    rewrite Forall_forall in Hstored. specialize (Hstored _ Hk). by eexists. }
  pose proof (file_size_nonneg storage file Hagree) as HF0.
  destruct (foldl_status_balance (file_size file) calls (file_size file) 0%Z)
    as (Heq & H0 & HFle); try lia.
  - rewrite Forall_forall in Hnn, Hstored. apply Forall_forall. intros [[k c] b] Hin.
    split; [by apply (Hnn _ Hin)|]. cbn [fst snd].
    apply (Hhonest k c). apply (Hstored _ Hin).
  - by destruct Hagree as (_ & ? & _).
  - rewrite <- Hcnt in Heq, H0, HFle. cbn [fst snd] in *. lia.
Qed.

Lemma WriteChunkData_completes_progress_witness :
  let w := start_with [inr 32%Z] (mkTransfer ([] : list Z) 0%Z 0%Z ([] : list (Z * Z))) in
  let w' := (WriteChunkData example_storage example_file example_perm
               (Some record_status) w).1 in
  is_permutation example_perm
  ∧ length (file_chunks example_file) ≤ length example_perm
  ∧ consistent example_storage example_file
  ∧ sizes_honest example_storage
  ∧ Forall (λ k, k ≠ emptyKey) (file_chunks example_file).*1
  ∧ WriteChunkData example_storage example_file example_perm (Some record_status) w
    = (w', None)
  ∧ bytesToTransfer (w_user w') = bytesTransferred (w_user w')
  ∧ (0 ≤ bytesTransferred (w_user w') ≤ file_size example_file)%Z.
Proof.
  intros w w'.
  split; [compute_done|]. split; [simpl; lia|]. split; [apply example_consistent|].
  split; [apply example_sizes_honest|]. split; [compute_done|].
  split; [vm_compute; reflexivity|].
  apply (WriteChunkData_completes_progress example_storage example_file example_perm
           (Some record_status) w w').
  - compute_done.
  - simpl. lia.
  - apply example_consistent.
  - apply example_sizes_honest.
  - compute_done.
  - vm_compute. reflexivity.
Defined.

Lemma WriteChunkData_each_send_fails {W Obs : Type} `{Writer W}
    (cb : option (Z → Z → Obs → Obs)) c (t : Transfer W Obs) e :
  send_fails c (t_out t) e →
  (WriteChunkData_each cb c true t).2 = Some e
  ∧ bytesToTransfer (WriteChunkData_each cb c true t).1 = bytesToTransfer t
  ∧ bytesTransferred (WriteChunkData_each cb c true t).1 = bytesTransferred t
  ∧ t_observer (WriteChunkData_each cb c true t).1 = t_observer t.
Proof.
  unfold send_fails, WriteChunkData_each, io_Copy.
  destruct (writeVarint (chunk_size c) (t_out t)) as [o1 [e1|]]; cbn [fst snd].
  - intros [[= ->]|[? _]]; done.
  - destruct (Write (chunk_data c) o1) as [o2 [e2|]]; cbn [fst snd].
    + intros [?|[_ [= ->]]]; done.
    + intros [?|[_ ?]]; done.
Qed.

(** X6. When the run of [WriteChunkData] has reached the slot of a requested
    chunk and the writer refuses the chunk's varint or its bytes,
    [WriteChunkData] returns the writer's error; the two counters and the
    observer stay as they were before the chunk: the callback is not called
    for it. *)
Theorem WriteChunkData_writer_error {W Obs : Type} `{Writer W}
    (storage : gmap (list Z) Chunk) (file : File) (perm : list nat)
    (cb : option (Z → Z → Obs → Obs)) (w : World (Transfer W Obs))
    j key wj src' c e :
  is_permutation perm → length (file_chunks file) ≤ length perm →
  slot_keys file perm !! j = Some key → key ≠ emptyKey → storage !! key = Some c →
  consume_all (forEachChunk_consume storage (WriteChunkData_each cb))
    (take j (slot_keys file perm)) (transfer_start file cb w) = (wj, None) →
  ReadBit (w_src wj) = (src', inr true) →
  send_fails c (t_out (w_user wj)) e →
  (WriteChunkData storage file perm cb w).2 = Some e
  ∧ bytesToTransfer (w_user (WriteChunkData storage file perm cb w).1)
    = bytesToTransfer (w_user wj)
  ∧ bytesTransferred (w_user (WriteChunkData storage file perm cb w).1)
    = bytesTransferred (w_user wj)
  ∧ t_observer (w_user (WriteChunkData storage file perm cb w).1)
    = t_observer (w_user wj).
Proof.
  intros Hperm Hlen Hj Hk Hget Hreach Hbit Hfail.
  destruct (WriteChunkData_each_send_fails cb c (w_user wj) e Hfail)
    as (He & HtoT & HT & Hobs).
  destruct (WriteChunkData_each cb c true (w_user wj)) as [u' r] eqn:Hf.
  cbn [fst snd] in *. subst r.
  unfold WriteChunkData.
  rewrite (forEachChunk_delegate_error_stops storage file perm (WriteChunkData_each cb)
             Hperm Hlen
             (mkWorld (w_reader w) (w_bits w) (w_handles w) (w_log w)
                (notify cb (mkTransfer (t_out (w_user w)) (file_size file) 0%Z
                              (t_observer (w_user w)))))
             j key wj src' true c u' e Hj Hk Hget Hreach Hbit Hf).
  done.
Qed.

Lemma WriteChunkData_writer_error_witness :
  let w := start_with [inr 160%Z] (mkTransfer (mkPipe [] 2) 0%Z 0%Z ([] : list (Z * Z))) in
  let cb := Some record_status in
  let wj := transfer_start example_file cb w in
  let src' := (ReadBit (w_src wj)).1 in
  let c := mkChunk 3 [20; 21; 22]%Z in
  is_permutation example_perm
  ∧ length (file_chunks example_file) ≤ length example_perm
  ∧ slot_keys example_file example_perm !! 0 = Some key_b
  ∧ key_b ≠ emptyKey
  ∧ example_storage !! key_b = Some c
  ∧ ReadBit (w_src wj) = (src', inr true)
  ∧ send_fails c (t_out (w_user wj)) (ErrIO 0)
  ∧ (WriteChunkData example_storage example_file example_perm cb w).2 = Some (ErrIO 0)
  ∧ bytesToTransfer (w_user (WriteChunkData example_storage example_file example_perm cb w).1)
    = bytesToTransfer (w_user wj)
  ∧ bytesTransferred (w_user (WriteChunkData example_storage example_file example_perm cb w).1)
    = bytesTransferred (w_user wj)
  ∧ t_observer (w_user (WriteChunkData example_storage example_file example_perm cb w).1)
    = t_observer (w_user wj).
Proof.
  intros w cb wj src' c.
  assert (send_fails c (t_out (w_user wj)) (ErrIO 0)) as Hfail.
  { right. split; vm_compute; reflexivity. }
  split; [compute_done|]. split; [simpl; lia|]. split; [vm_compute; reflexivity|].
  split; [compute_done|]. split; [vm_compute; reflexivity|].
  split; [vm_compute; reflexivity|]. split; [exact Hfail|].
  apply (WriteChunkData_writer_error example_storage example_file example_perm cb w
           0 key_b wj src' c (ErrIO 0)).
  - compute_done.
  - simpl. lia.
  - vm_compute. reflexivity.
  - compute_done.
  - vm_compute. reflexivity.
  - vm_compute. reflexivity.
  - vm_compute. reflexivity.
  - exact Hfail.
Defined.

(** X7. The hash list and the wishlist are aligned: there is one list of N
    slots such that [WriteChunkHashes] writes the entries of these slots in
    order and [forEachChunk] reads the wishlist bits for the keys of these
    same slots in order. *)
Theorem hash_list_and_wishlist_aligned {U : Type} (storage : gmap (list Z) Chunk)
    (file : File) (perm : list nat) (f : Chunk → bool → U → U * option error)
    (out : list Z) (w : World U) :
  is_permutation perm → length (file_chunks file) ≤ length perm →
  ∃ slots : list (list Z * Z),
    length slots = length perm
    ∧ WriteChunkHashes file perm out = (out ++ mjoin (hash_entry <$> slots), None)
    ∧ forEachChunk storage file perm f w
      = (consume_all (forEachChunk_consume storage f) slots.*1 ;;; expect_end)
          (with_src (w_reader w, newBitReader) w).
Proof.
  intros Hperm Hlen.
  exists (shuffled perm (emptyKey, 0%Z) (file_chunks file)).
  split; [by apply length_shuffled|]. split.
  - unfold WriteChunkHashes.
    by rewrite put_each_then_End_shuffled, consume_all_hash_entries.
  - rewrite forEachChunk_slots by done. do 2 f_equal.
    unfold slot_keys, shuffled. rewrite <- list_fmap_compose.
    apply list_fmap_ext. intros _ j _. unfold compose, slot_item.
    destruct (source_of perm j) as [i|]; [|done].
    rewrite list_lookup_fmap. by destruct (file_chunks file !! i).
Qed.

Lemma hash_list_and_wishlist_aligned_witness :
  is_permutation example_perm
  ∧ length (file_chunks example_file) ≤ length example_perm
  ∧ ∃ slots : list (list Z * Z),
      length slots = length example_perm
      ∧ WriteChunkHashes example_file example_perm []
        = ([] ++ mjoin (hash_entry <$> slots), None)
      ∧ forEachChunk example_storage example_file example_perm idle
          (start_with [inr 160%Z] tt)
        = (consume_all (forEachChunk_consume example_storage idle) slots.*1 ;;; expect_end)
            (with_src (w_reader (start_with [inr 160%Z] tt), newBitReader)
               (start_with [inr 160%Z] tt)).
Proof.
  split; [compute_done|]. split; [simpl; lia|].
  apply (hash_list_and_wishlist_aligned example_storage example_file example_perm idle []
           (start_with [inr 160%Z] tt)).
  - compute_done.
  - simpl. lia.
Defined.

Lemma placeholder_entries n :
  mjoin (hash_entry <$> replicate n (emptyKey, 0%Z)) = replicate ((KeySize + 1) * n) 0%Z.
Proof.
  assert (hash_entry (emptyKey, 0%Z) = replicate (KeySize + 1) 0%Z) as Hentry.
  { unfold hash_entry, emptyKey. cbn [fst snd]. by rewrite replicate_add. }
  induction n as [|n IH]; [by rewrite Nat.mul_0_r|].
  replace ((KeySize + 1) * S n) with ((KeySize + 1) + (KeySize + 1) * n) by lia.
  rewrite replicate_add, <- IH. cbn [replicate fmap list_fmap mjoin list_join].
  by rewrite Hentry.
Qed.

(** X8. For a file without chunks [WriteChunkHashes] writes N placeholder
    entries and nothing else: with keys of [KeySize] bytes these are
    (KeySize + 1) N zero bytes (an all-zero key and the one-byte varint of 0
    for every slot), whatever the permutation of the N slots. *)
Theorem WriteChunkHashes_empty_file (size : Z) (perm : list nat) (out : list Z) :
  is_permutation perm →
  WriteChunkHashes (mkFile size []) perm out
  = (out ++ replicate ((KeySize + 1) * length perm) 0%Z, None).
Proof.
  intros Hperm. unfold WriteChunkHashes. cbn [file_chunks].
  rewrite put_each_then_End_shuffled, consume_all_hash_entries by (done || simpl; lia).
  assert (shuffled perm (emptyKey, 0%Z) [] = replicate (length perm) (emptyKey, 0%Z)) as ->.
  { apply list_eq. intros j. destruct (decide (j < length perm)) as [Hj|Hj].
    - rewrite lookup_replicate_2 by done.
      apply shuffled_placeholder; [done|done|]. intros; simpl; lia.
    - rewrite !lookup_ge_None_2; [done| |].
      + rewrite length_replicate. lia.
      + rewrite length_shuffled. lia. }
  by rewrite placeholder_entries.
Qed.

Lemma WriteChunkHashes_empty_file_witness :
  is_permutation [1; 3; 0; 2]
  ∧ WriteChunkHashes (mkFile 0 []) [1; 3; 0; 2] []
    = ([] ++ replicate ((KeySize + 1) * length [1; 3; 0; 2]) 0%Z, None).
Proof.
  split; [compute_done|].
  apply (WriteChunkHashes_empty_file 0 [1; 3; 0; 2] []). compute_done.
Defined.

Lemma foldl_status_transferred (F : Z) calls : ∀ toT T,
  Forall (λ call : list Z * Chunk * bool,
            (0 ≤ chunk_size call.1.2)%Z
            ∧ chunk_size call.1.2 = Z.of_nat (length (chunk_data call.1.2))) calls →
  (0 ≤ T)%Z → (toT ≤ F)%Z → (F < 2 ^ 63)%Z →
  (T + (F - toT)
   + foldr Z.add 0 ((λ call : list Z * Chunk * bool, chunk_size call.1.2) <$> calls)
   ≤ F)%Z →
  (foldl status_after (toT, T) calls).2 = (T + payload_length calls)%Z.
Proof.
  induction calls as [|[[key c] b] calls IH]; intros toT T Hcalls HT HtoT HF Hsum.
  - unfold payload_length. simpl. lia.
  - apply Forall_cons in Hcalls as [[Hc0 Hclen] Hcalls]. cbn [fst snd] in *.
    cbn [fmap list_fmap foldr fst snd] in *.
    pose proof (sum_nonneg ((λ call : list Z * Chunk * bool, chunk_size call.1.2) <$> calls))
      as Hnn.
    assert (0 ≤ foldr Z.add 0
              ((λ call : list Z * Chunk * bool, chunk_size call.1.2) <$> calls))%Z as Hrest.
    { apply Hnn. apply Forall_fmap. eapply Forall_impl; [done|]. by intros ? [? _]. }
    cbn [foldl].
    assert (status_after (toT, T) (key, c, b)
            = if b then (toT, (T + chunk_size c)%Z) else ((toT - chunk_size c)%Z, T)) as ->.
    { unfold status_after. cbn [fst snd]. destruct b.
      - by rewrite <- Hclen, wrap64_small by lia.
      - by rewrite wrap64_small by lia. }
    unfold payload_length in *. cbn [fmap list_fmap foldr fst snd].
    destruct b.
    + rewrite (IH toT (T + chunk_size c)%Z); try done; lia.
    + rewrite (IH (toT - chunk_size c)%Z T); try done; lia.
Qed.

Lemma requested_length_split calls :
  requested_length calls = (payload_length calls + prefixes_length calls)%Z.
Proof.
  unfold requested_length, payload_length, prefixes_length.
  induction calls as [|[[key c] b] calls IH]; [done|].
  cbn [fmap list_fmap foldr fst snd]. rewrite IH. destruct b; lia.
Qed.

(** X11. When the file and the store agree on the sizes, after a successful
    [WriteChunkData] into a writer that accepts everything [bytesTransferred]
    is the number of bytes of chunk data that were written: the output has
    grown by [bytesTransferred] and by the bytes of the varint prefixes of the
    requested chunks, which the counter leaves out. *)
Theorem bytesTransferred_counts_chunk_data {Obs : Type}
    (storage : gmap (list Z) Chunk) (file : File) (perm : list nat)
    (cb : option (Z → Z → Obs → Obs)) (w w' : World (Transfer (list Z) Obs)) :
  is_permutation perm → length (file_chunks file) ≤ length perm →
  consistent storage file → sizes_honest storage →
  WriteChunkData storage file perm cb w = (w', None) →
  ∃ bits src',
    read_bits (length perm) (w_reader w, newBitReader) = (src', inr bits)
    ∧ bytesTransferred (w_user w')
      = payload_length (calls_of storage (slot_keys file perm) bits)
    ∧ (Z.of_nat (length (t_out (w_user w')))
       = Z.of_nat (length (t_out (w_user w)))
         + bytesTransferred (w_user w')
         + prefixes_length (calls_of storage (slot_keys file perm) bits))%Z.
Proof.
  intros Hperm Hlen Hagree Hhonest Hrun. unfold WriteChunkData in Hrun.
  destruct (forEachChunk_ok_user storage file perm (WriteChunkData_each cb) Hperm Hlen
              _ _ Hrun) as (bits & src' & Hbits & Hcalls & Hkeys).
  exists bits, src'. split; [done|]. cbn [w_user] in Hcalls.
  pose proof (run_calls_buffer cb _ _ _ Hcalls) as Hout.
  apply run_calls_status in Hcalls as [Hcnt _].
  rewrite notify_one in Hcnt, Hout.
  cbn [bytesToTransfer bytesTransferred t_out] in Hcnt, Hout.
  set (calls := calls_of storage (slot_keys file perm) bits) in *.
  pose proof (calls_of_stored storage (slot_keys file perm) bits) as Hstored.
  fold calls in Hstored.
  destruct (calls_size_bound storage file perm Hperm Hlen Hagree calls) as [Hnn Hsum];
    [by rewrite Hkeys|done|].
  pose proof (file_size_nonneg storage file Hagree) as HF0.
  assert (Forall (λ call : list Z * Chunk * bool,
                    (0 ≤ chunk_size call.1.2)%Z
                    ∧ chunk_size call.1.2 = Z.of_nat (length (chunk_data call.1.2))) calls)
    as Hcalls.
  { rewrite Forall_forall in Hnn, Hstored. apply Forall_forall. intros [[k c] b] Hin.
    split; [by apply (Hnn _ Hin)|]. cbn [fst snd].
    apply (Hhonest k c). apply (Hstored _ Hin). }
  assert (bytesTransferred (w_user w') = payload_length calls) as HT.
  { pose proof (foldl_status_transferred (file_size file) calls (file_size file) 0%Z
                  Hcalls) as Hp.
    rewrite <- Hcnt in Hp. cbn [snd] in Hp. rewrite Hp; [lia|lia|lia| |lia].
    by destruct Hagree as (_ & ? & _). }
  split; [done|].
  rewrite Hout, length_app, Nat2Z.inj_add, HT.
  rewrite data_stream_length, requested_length_split; [lia|].
  eapply Forall_impl; [exact Hcalls|]. by intros ? [_ ?].
Qed.

Lemma bytesTransferred_counts_chunk_data_witness :
  let w := start_with [inr 160%Z] (mkTransfer ([] : list Z) 0%Z 0%Z ([] : list (Z * Z))) in
  let w' := (WriteChunkData example_storage example_file example_perm
               (Some record_status) w).1 in
  is_permutation example_perm
  ∧ length (file_chunks example_file) ≤ length example_perm
  ∧ consistent example_storage example_file
  ∧ sizes_honest example_storage
  ∧ WriteChunkData example_storage example_file example_perm (Some record_status) w
    = (w', None)
  ∧ ∃ bits src',
      read_bits (length example_perm) (w_reader w, newBitReader) = (src', inr bits)
      ∧ bytesTransferred (w_user w')
        = payload_length (calls_of example_storage
                            (slot_keys example_file example_perm) bits)
      ∧ (Z.of_nat (length (t_out (w_user w')))
         = Z.of_nat (length (t_out (w_user w)))
           + bytesTransferred (w_user w')
           + prefixes_length (calls_of example_storage
                                (slot_keys example_file example_perm) bits))%Z.
Proof.
  intros w w'.
  split; [compute_done|]. split; [simpl; lia|]. split; [apply example_consistent|].
  split; [apply example_sizes_honest|]. split; [vm_compute; reflexivity|].
  apply (bytesTransferred_counts_chunk_data example_storage example_file example_perm
           (Some record_status) w w').
  - compute_done.
  - simpl. lia.
  - apply example_consistent.
  - apply example_sizes_honest.
  - vm_compute. reflexivity.
Defined.

End remotesync_facts.

(** ** The test helpers *)

Module remotesync_test_facts.
Import remotesync_test.

Lemma assertEqual_loop_content (la : list Z) : ∀ (lb : list Z) rounds buf,
  length la + length lb < rounds →
  assertEqual_loop rounds (rc_reads (content_reader la)) (rc_reads (content_reader lb))
    buf buf
  = first_difference la lb.
Proof.
  induction la as [|x la IH]; intros [|y lb] [|rounds] buf Hr; simpl in Hr; try lia;
    try done.
  - cbn -[decide]. rewrite decide_False by (intros ?; done).
    rewrite decide_False by (intros ?; done).
    rewrite decide_False by (intros ?; done).
    by rewrite decide_True.
  - cbn -[decide]. rewrite decide_False by (intros ?; done).
    rewrite decide_False by (intros ?; done).
    destruct (decide (x = y)) as [->|Hxy].
    + rewrite decide_False by (intros ?; done).
      rewrite decide_False by (intros [? _]; done).
      apply IH. lia.
    + by rewrite decide_True.
Qed.

Lemma first_difference_None la : ∀ lb, first_difference la lb = None ↔ la = lb.
Proof.
  induction la as [|x la IH]; intros [|y lb]; simpl; try done.
  destruct (decide (x = y)) as [->|Hxy].
  - rewrite IH. split; [by intros ->|by intros [= ->]].
  - split; [done|]. by intros [= ? _].
Qed.

Lemma first_difference_finished la : ∀ lb, first_difference la lb ≠ Some Unfinished.
Proof.
  induction la as [|x la IH]; intros [|y lb]; simpl; try done.
  destruct (decide (x = y)); [apply IH|done].
Qed.

(** X9. For two readers that hand out their contents byte by byte and then
    answer [io.EOF], [assertEqual] passes exactly when the contents are
    equal; otherwise it stops at the first place where they differ, with
    "Files differ in content" for two different bytes and "Files differ in
    size" when one content ends there; its loop always ends. *)
Theorem assertEqual_passes_iff_equal (la lb : list Z) :
  (assertEqual (content_reader la) (content_reader lb) = Passed ↔ la = lb)
  ∧ assertEqual (content_reader la) (content_reader lb)
    = default Passed (first_difference la lb)
  ∧ assertEqual (content_reader la) (content_reader lb) ≠ Unfinished.
Proof.
  assert (assertEqual (content_reader la) (content_reader lb)
          = default Passed (first_difference la lb)) as Heq.
  { unfold assertEqual. rewrite assertEqual_loop_content.
    - by destruct (first_difference la lb).
    - unfold content_reader. cbn [rc_reads]. rewrite !length_fmap. lia. }
  split; [|split; [done|]].
  - rewrite Heq, <- first_difference_None.
    destruct (first_difference la lb) as [v|] eqn:Hd; [|done].
    simpl. split; [|done]. intros ->. revert Hd. clear.
    revert lb. induction la as [|x la IH]; intros [|y lb]; simpl; try done.
    destruct (decide (x = y)); [apply IH|done].
  - rewrite Heq. pose proof (first_difference_finished la lb).
    destruct (first_difference la lb) as [v|]; simpl; congruence.
Qed.

Lemma assertEqual_loop_eager (x : Z) (l : list Z) : ∀ rounds buf,
  length l + length l + 2 < rounds →
  assertEqual_loop rounds (eager_reads (l ++ [x])) (rc_reads (content_reader (l ++ [x])))
    buf buf
  = Some (ReadErrorsDiffer (Some EOF) None).
Proof.
  induction l as [|y l IH]; intros [|rounds] buf Hr; simpl in Hr; try lia.
  - cbn -[decide]. rewrite decide_False by (intros ?; done).
    by rewrite decide_True.
  - change (eager_reads ((y :: l) ++ [x])) with (eager_reads (y :: (l ++ [x]))).
    assert (eager_reads (y :: l ++ [x]) = (Some y, None) :: eager_reads (l ++ [x])) as ->.
    { by destruct l. }
    cbn -[decide eager_reads]. rewrite decide_False by (intros ?; done).
    rewrite decide_False by (intros ?; done).
    rewrite decide_False by (intros ?; done).
    rewrite decide_False by (intros [? _]; done).
    apply IH. lia.
Qed.

(** X12. [assertEqual] compares how the two readers answer, not only what
    they hold: for one and the same content that is not empty, a reader that
    answers [io.EOF] together with the last byte and a reader that answers it
    on the call after make [assertEqual] stop with "Error a:EOF b:<nil>". *)
Theorem assertEqual_checks_eof_signalling (content : list Z) :
  content ≠ [] →
  assertEqual (eager_reader content) (content_reader content)
  = ReadErrorsDiffer (Some EOF) None.
Proof.
  intros Hne.
  destruct (exists_last Hne) as (l & x & ->).
  unfold assertEqual, eager_reader. cbn [rc_reads].
  rewrite assertEqual_loop_eager; [done|].
  unfold content_reader. cbn [rc_reads]. rewrite length_fmap, length_app. simpl.
  assert (∀ k : list Z, length (eager_reads k) = length k) as ->.
  { induction k as [|a [|b k] IH]; [done|done|]. simpl in *. by rewrite IH. }
  rewrite length_app. simpl. lia.
Qed.

Lemma assertEqual_checks_eof_signalling_witness :
  [5; 6]%Z ≠ []
  ∧ assertEqual (eager_reader [5; 6]%Z) (content_reader [5; 6]%Z)
    = ReadErrorsDiffer (Some EOF) None.
Proof.
  split; [done|]. by apply (assertEqual_checks_eof_signalling [5; 6]%Z).
Defined.

Lemma randomBytes_loop_spec (length : Z) (rand : nat → Z) : ∀ rounds pos result,
  (Z.of_nat (List.length result) + Z.of_nat rounds = length)%Z →
  randomBytes_loop rounds length rand pos result
  = (result ++ ((λ i, rand i mod 256)%Z <$> seq pos rounds), pos + rounds).
Proof.
  induction rounds as [|rounds IH]; intros pos result Hlen; cbn [randomBytes_loop].
  - simpl. by rewrite app_nil_r, Nat.add_0_r.
  - rewrite decide_True by lia. rewrite IH.
    + cbn [seq fmap list_fmap]. rewrite <- app_assoc. simpl. f_equal. lia.
    + rewrite length_app. simpl. lia.
Qed.

(** X10. For a length that is not negative, [randomBytes] returns exactly
    that many bytes, the i-th being the low eight bits of the i-th number it
    draws, and draws no more numbers than that; a negative length makes it
    panic. *)
Theorem randomBytes_length (length : Z) (rand : nat → Z) (pos : nat) :
  (0 ≤ length)%Z →
  ∃ bytes,
    randomBytes length rand pos = Some (bytes, pos + Z.to_nat length)
    ∧ Z.of_nat (List.length bytes) = length
    ∧ (∀ i, i < Z.to_nat length → bytes !! i = Some (rand (pos + i)%nat mod 256)%Z)
    ∧ Forall (λ b, 0 ≤ b < 256)%Z bytes.
Proof.
  intros Hlen. unfold randomBytes. rewrite decide_False by lia.
  rewrite randomBytes_loop_spec by (simpl; lia). simpl.
  eexists. split; [done|]. split; [|split].
  - rewrite length_fmap, length_seq. lia.
  - intros i Hi. by rewrite list_lookup_fmap, lookup_seq_lt.
  - apply Forall_fmap, Forall_forall. intros i _. simpl. apply Z.mod_pos_bound. lia.
Qed.

Lemma randomBytes_length_witness :
  (0 ≤ 3)%Z
  ∧ ∃ bytes,
      randomBytes 3 (λ i, 255 + Z.of_nat i)%Z 0 = Some (bytes, 0 + Z.to_nat 3)
      ∧ Z.of_nat (List.length bytes) = 3%Z
      ∧ (∀ i, i < Z.to_nat 3 →
              bytes !! i = Some ((λ i, 255 + Z.of_nat i) (0 + i)%nat mod 256)%Z)
      ∧ Forall (λ b, 0 ≤ b < 256)%Z bytes.
Proof.
  split; [lia|]. apply (randomBytes_length 3 (λ i, 255 + Z.of_nat i)%Z 0). lia.
Defined.

End remotesync_test_facts.
